(** * A shallow embedding of the JMESPath tree interpreter (src/src/interpreter.rs)

    The interpreter is a recursive function over the AST that threads a
    mutable [Context] (the current offset used for error reporting) and
    fails fast on the first [RuntimeError].  Rust panics (index out of
    bounds, arithmetic overflow in a build with overflow checks, which is
    the default profile of [cargo build] and [cargo test]) are modelled as
    a third outcome [Panic]. *)

From Stdlib Require Import ZArith List String Bool Lia Sorting.Sorted.
Import ListNotations.
Open Scope Z_scope.
#[local] Set Warnings "-register-all".

(** ** Values and AST *)

(** [Variable] of the value model, named after its shared pointer [RcVar]
    since [Variable] is a keyword of Rocq; sharing is invisible since values
    are immutable.  The constructors carry a [V]
    prefix because the AST has a constructor [Expref] too.  Numbers are
    carried as their value; no claim inspects them.  Objects are the
    [BTreeMap<String, RcVar>] of the source, kept as an association list. *)
Inductive RcVar : Type :=
| VNull
| VString (s : string)
| VBool (b : bool)
| VNumber (n : Z)
| VArray (a : list RcVar)
| VObject (m : list (string * RcVar))
| VExpref (ast : Ast)

(** [Ast] nodes; the source offsets are [usize], integer payloads [i32]
    (kept as [Z], in range [-2^31, 2^31)). *)
with Ast : Type :=
| Comparison (comparator : Comparator) (lhs rhs : Ast) (offset : nat)
| Condition (predicate then_ : Ast) (offset : nat)
| Identity (offset : nat)
| Expref (ast : Ast) (offset : nat)
| Flatten (node : Ast) (offset : nat)
| Function (name : string) (args : list Ast) (offset : nat)
| Field (name : string) (offset : nat)
| Index (idx : Z) (offset : nat)
| Literal (value : RcVar) (offset : nat)
| MultiList (elements : list Ast) (offset : nat)
| MultiHash (elements : list (Ast * Ast)) (offset : nat)
| Not (node : Ast) (offset : nat)
| Projection (lhs rhs : Ast) (offset : nat)
| ObjectValues (node : Ast) (offset : nat)
| And (lhs rhs : Ast) (offset : nat)
| Or (lhs rhs : Ast) (offset : nat)
| Slice (start stop : option Z) (step : Z) (offset : nat)
| Subexpr (lhs rhs : Ast) (offset : nat)

with Comparator : Type :=
| Equal | NotEqual | LessThan | LessThanEqual | GreaterThan | GreaterThanEqual.

(** [KeyValuePair { key, value }] of a [MultiHash]. *)
Definition kvp_key (kvp : Ast * Ast) : Ast := fst kvp.
Definition kvp_value (kvp : Ast * Ast) : Ast := snd kvp.

(** ** Errors, context and the evaluation monad *)

(** [Coordinates::from_offset(expression, offset)] is a pure function of the
    offset and the expression, both recorded; the coordinates are kept as the
    offset they are computed from. *)
Definition Coordinates := nat.

Inductive RuntimeError : Type :=
| UnknownFunction (coordinates : Coordinates) (expression : string) (function : string)
| InvalidKey (coordinates : Coordinates) (expression : string) (actual : string)
| InvalidSlice (coordinates : Coordinates) (expression : string)
(** errors raised inside function bodies (arity, types, ...) *)
| FunctionError (coordinates : Coordinates) (expression : string) (message : string).

(** [Context]: the original expression and the offset being evaluated.  The
    back reference [interpreter] is left out: a registered function, which
    may use it for nested evaluation, is modelled as a function of its
    arguments and of this context only. *)
Record Context : Type := mkContext { expression : string; offset : nat }.

Definition set_offset (o : nat) (ctx : Context) : Context :=
  mkContext (expression ctx) o.

Definition create_coordinates (ctx : Context) : Coordinates := offset ctx.

Inductive Outcome (A : Type) : Type :=
| Ok (a : A)
| Error (e : RuntimeError)
| Panic.
Arguments Ok {A} a.
Arguments Error {A} e.
Arguments Panic {A}.

(** A computation reads and updates the [&mut Context]. *)
Definition M (A : Type) : Type := Context -> Outcome A * Context.

Definition ret {A} (a : A) : M A := fun ctx => (Ok a, ctx).
Definition raise {A} (e : RuntimeError) : M A := fun ctx => (Error e, ctx).
Definition panic {A} : M A := fun ctx => (Panic, ctx).

(** [try!]: run [m], propagate an error or a panic, else continue. *)
Definition bind {A B} (m : M A) (k : A -> M B) : M B :=
  fun ctx =>
    match m ctx with
    | (Ok a, ctx') => k a ctx'
    | (Error e, ctx') => (Error e, ctx')
    | (Panic, ctx') => (Panic, ctx')
    end.

Notation "'let*' x := m 'in' k" := (bind m (fun x => k))
  (at level 200, x name, m at level 100, k at level 200).

(** [ctx.offset = *offset] *)
Definition set_ctx_offset (o : nat) : M unit :=
  fun ctx => (Ok tt, set_offset o ctx).

Definition get_ctx : M Context := fun ctx => (Ok ctx, ctx).

(** A registered function: [JPFunction::evaluate(&self, Vec<RcVar>, &mut Context)]. *)
Definition JPFunction := list RcVar -> M RcVar.

(** [Functions = HashMap<String, Box<JPFunction>>]. *)
Definition Functions := list (string * JPFunction).

Fixpoint functions_get (fs : Functions) (name : string) : option JPFunction :=
  match fs with
  | [] => None
  | (n, f) :: rest => if String.eqb n name then Some f else functions_get rest name
  end.

Record TreeInterpreter : Type := mkTreeInterpreter { functions : Functions }.

(** ** [i32] arithmetic *)

Definition i32_min : Z := - 2 ^ 31.
Definition i32_max : Z := 2 ^ 31 - 1.

(** An [i32] operation whose mathematical result is [z]: [None] when it
    overflows (a panic with overflow checks). *)
Definition checked_i32 (z : Z) : option Z :=
  if (i32_min <=? z) && (z <=? i32_max) then Some z else None.

(** [n as i32] for a [usize] [n]: truncation to the low 32 bits. *)
Definition usize_as_i32 (n : nat) : Z :=
  let m := Z.of_nat n mod 2 ^ 32 in
  if m <=? i32_max then m else m - 2 ^ 32.

(** [array[i as usize]]: a negative [i] becomes a [usize] of at least [2^63],
    out of bounds for any array; out of bounds panics. *)
Definition index_i32 {A} (array : list A) (i : Z) : option A :=
  if 0 <=? i then nth_error array (Z.to_nat i) else None.

(** ** Methods of [Variable] (variable.rs, which is not under src/) *)

(** Modelled from the spec: [Variable::is_truthy], "null, false, empty
    string, empty array, empty object are falsy; everything else (including
    0 and numeric zero) is truthy". *)
Definition is_truthy (v : RcVar) : bool :=
  match v with
  | VNull => false
  | VBool b => b
  | VString s => negb (String.eqb s ""%string)
  | VArray a => match a with [] => false | _ => true end
  | VObject m => match m with [] => false | _ => true end
  | VNumber _ => true
  | VExpref _ => true
  end.

(** Modelled from the spec: [Variable::is_null]. *)
Definition is_null (v : RcVar) : bool :=
  match v with VNull => true | _ => false end.

(** Modelled from the spec: [Variable::as_array], the elements of an array. *)
Definition as_array (v : RcVar) : option (list RcVar) :=
  match v with VArray a => Some a | _ => None end.

Fixpoint map_get {A} (m : list (string * A)) (k : string) : option A :=
  match m with
  | [] => None
  | (k', v) :: rest => if String.eqb k' k then Some v else map_get rest k
  end.

(** Modelled from the spec: [Variable::get_value], "looks up [name] in
    input if it is an object". *)
Definition get_value (v : RcVar) (name : string) : option RcVar :=
  match v with VObject m => map_get m name | _ => None end.

(** Modelled from the spec: [Variable::get_index], "positional lookup from
    front". *)
Definition get_index (v : RcVar) (n : nat) : option RcVar :=
  match v with VArray a => nth_error a n | _ => None end.

(** Modelled from the spec: [Variable::get_negative_index], "lookup from the
    end using magnitude": magnitude [n] is the element at position
    [len - n]; out of range yields nothing. *)
Definition get_negative_index (v : RcVar) (n : nat) : option RcVar :=
  match v with
  | VArray a =>
      if (n =? 0)%nat || (List.length a <? n)%nat then None
      else nth_error a (List.length a - n)
  | _ => None
  end.

(** Modelled from the spec: [Variable::get_type], the type name carried by
    [InvalidKey]. *)
Definition get_type (v : RcVar) : string :=
  match v with
  | VNull => "null"%string
  | VString _ => "string"%string
  | VBool _ => "boolean"%string
  | VNumber _ => "number"%string
  | VArray _ => "array"%string
  | VObject _ => "object"%string
  | VExpref _ => "expref"%string
  end.

(** ** [BTreeMap<String, RcVar>::insert]: keys kept in ascending byte order,
    an existing key has its value replaced. *)
Fixpoint btree_insert (k : string) (v : RcVar) (m : list (string * RcVar))
  : list (string * RcVar) :=
  match m with
  | [] => [(k, v)]
  | (k', v') :: rest =>
      match String.compare k k' with
      | Lt => (k, v) :: m
      | Eq => (k, v) :: rest
      | Gt => (k', v') :: btree_insert k v rest
      end
  end.

(** ** [slice] and [adjust_slice_endpoint] *)

Definition adjust_slice_endpoint (len endpoint step : Z) : option Z :=
  if endpoint <? 0 then
    match checked_i32 (endpoint + len) with
    | None => None
    | Some endpoint' =>
        if endpoint' >=? 0 then Some endpoint'
        else if step <? 0 then Some (-1) else Some 0
    end
  else if endpoint <? len then Some endpoint
  else if step <? 0 then checked_i32 (len - 1)
  else Some len.

(** The two [while] loops of [slice]: [while i < b] for a positive step,
    [while i > b] otherwise; each round pushes [array[i as usize]] and does
    [i += step].  [None] is a panic.  The [fuel] bounds the number of rounds;
    [slice] gives one more than the length of the array: every round reads
    an index inside the array (or panics) and moves it strictly in one
    direction, so the fuel never runs out (see also
    [slice_agrees_without_overflow]). *)
Fixpoint slice_loop (array : list RcVar) (b step : Z) (fuel : nat) (i : Z)
  : option (list RcVar) :=
  match fuel with
  | O => Some []
  | S fuel' =>
      if (if step >? 0 then i <? b else b <? i) then
        match index_i32 array i with
        | None => None
        | Some x =>
            match checked_i32 (i + step) with
            | None => None
            | Some i' => option_map (cons x) (slice_loop array b step fuel' i')
            end
        end
      else Some []
  end.

Definition slice (array : list RcVar) (start stop : option Z) (step : Z)
  : option (list RcVar) :=
  let len := usize_as_i32 (List.length array) in
  if len =? 0 then Some [] else
  let a := match start with
           | Some starting_index => adjust_slice_endpoint len starting_index step
           | None => if step <? 0 then checked_i32 (len - 1) else Some 0
           end in
  let b := match stop with
           | Some ending_index => adjust_slice_endpoint len ending_index step
           | None => if step <? 0 then Some (-1) else Some len
           end in
  match a, b with
  | Some a, Some b => slice_loop array b step (S (List.length array)) a
  | _, _ => None
  end.

(** ** The loops of [interpret]

    Each takes the recursive evaluation it performs per item as [f], so that
    [interpret] can call them on its sub-nodes. *)

(** [for node in nodes { collected.push(try!(f(node))) }]
    (the arguments of [Function], the elements of [MultiList]). *)
Definition push_each (f : Ast -> M RcVar) :=
  fix go (nodes : list Ast) (collected : list RcVar) : M (list RcVar) :=
    match nodes with
    | [] => ret collected
    | node :: rest =>
        let* v := f node in
        go rest (collected ++ [v])
    end.

(** The loop of [Projection]: keep every non-null result. *)
Fixpoint projection_loop (f : RcVar -> M RcVar) (left : list RcVar)
  (collected : list RcVar) : M (list RcVar) :=
  match left with
  | [] => ret collected
  | element :: rest =>
      let* current := f element in
      if negb (is_null current)
      then projection_loop f rest (collected ++ [current])
      else projection_loop f rest collected
  end.

(** The loop of [Flatten]. *)
Fixpoint flatten_loop (a : list RcVar) (collected : list RcVar) : list RcVar :=
  match a with
  | [] => collected
  | element :: rest =>
      match as_array element with
      | Some array => flatten_loop rest (collected ++ array)
      | None => flatten_loop rest (collected ++ [element])
      end
  end.

(** The loop of [MultiHash]: key, then value, then the type test of the
    key; [return Err(InvalidKey ..)] with the coordinates of the context as
    it is at that point. *)
Definition multihash_loop (f : Ast -> M RcVar) :=
  fix go (elements : list (Ast * Ast)) (collected : list (string * RcVar))
    : M (list (string * RcVar)) :=
    match elements with
    | [] => ret collected
    | (k, v) :: rest =>
        let* key := f k in
        let* value := f v in
        match key with
        | VString s => go rest (btree_insert s value collected)
        | _ =>
            let* ctx := get_ctx in
            raise (InvalidKey (create_coordinates ctx) (expression ctx) (get_type key))
        end
    end.

(** ** Concrete instances *)

(** A comparison that relates nothing, and an interpreter with no function. *)
Definition no_compare (a : RcVar) (c : Comparator) (b : RcVar) : option bool := None.
Definition empty_interpreter : TreeInterpreter := mkTreeInterpreter [].
Definition ctx0 : Context := mkContext "" 0.

Definition repeated_key_pairs : list (Ast * Ast) :=
  [(Literal (VString "a") 1, Literal (VNumber 1) 2);
   (Literal (VString "a") 3, Literal (VNumber 2) 4)].

(** ** The function registry of [Runtime] (src/jmespath/src/runtime.rs)

    [functions: HashMap<String, Arc<dyn Function>>], over any type [F] of
    function values.  The map is kept as an association list without
    repeated keys; no operation here depends on the iteration order. *)

(** [HashMap::remove]: the previous binding, and the map without the key. *)
Definition hm_remove {F} (k : string) (m : list (string * F)) : option F * list (string * F) :=
  (map_get m k, filter (fun kv => negb (String.eqb (fst kv) k)) m).

(** [HashMap::insert]: replaces the binding of [k]. *)
Definition hm_insert {F} (k : string) (v : F) (m : list (string * F)) : list (string * F) :=
  (k, v) :: snd (hm_remove k m).

Record Runtime (F : Type) : Type := mkRuntime { runtime_functions : list (string * F) }.
Arguments mkRuntime {F} runtime_functions.
Arguments runtime_functions {F} r.

(** [Runtime::new] / [Default::default]: an empty map. *)
Definition runtime_new {F} : Runtime F := mkRuntime [].

(** [Runtime::register_function] *)
Definition register_function {F} (rt : Runtime F) (name : string) (f : F) : Runtime F :=
  mkRuntime (hm_insert name f (runtime_functions rt)).

(** [Runtime::deregister_function]: the removed function and the new runtime. *)
Definition deregister_function {F} (rt : Runtime F) (name : string) : option F * Runtime F :=
  let (old, m) := hm_remove name (runtime_functions rt) in (old, mkRuntime m).

(** [Runtime::get_function] *)
Definition get_function {F} (rt : Runtime F) (name : string) : option F :=
  map_get (runtime_functions rt) name.

(** The names registered by [Runtime::register_builtin_functions], in order. *)
Definition builtin_names : list string :=
  ["abs"; "avg"; "ceil"; "contains"; "ends_with"; "floor"; "join"; "keys";
   "length"; "map"; "min"; "max"; "max_by"; "min_by"; "merge"; "not_null";
   "reverse"; "sort"; "sort_by"; "starts_with"; "sum"; "to_array";
   "to_number"; "to_string"; "type"; "values"]%string.

(** [Runtime::register_builtin_functions]; [builtin name] is the function
    value registered under [name] ([Arc::new(AbsFn::new())], ...), defined
    outside the files at hand. *)
Definition register_builtin_functions {F} (builtin : string -> F) (rt : Runtime F) : Runtime F :=
  fold_left (fun rt name => register_function rt name (builtin name)) builtin_names rt.

(** The expression text an error carries. *)
Definition error_expression (e : RuntimeError) : string :=
  match e with
  | UnknownFunction _ ex _ | InvalidKey _ ex _ | InvalidSlice _ ex
  | FunctionError _ ex _ => ex
  end.

(** A computation keeps the expression text of the context, and every error
    it ends in carries that text. *)
Definition preserves {A} (m : M A) : Prop :=
  forall ctx r c, m ctx = (r, c) ->
  expression c = expression ctx
  /\ (forall e, r = Error e -> error_expression e = expression ctx).

Section Interpreter.

(** [Variable::compare] (variable.rs, not under src/): no claim depends on
    it, so the interpreter is taken for any comparison function. *)
Variable compare : RcVar -> Comparator -> RcVar -> option bool.

(** [TreeInterpreter::interpret] *)
Fixpoint interpret (self : TreeInterpreter) (data : RcVar) (node : Ast) {struct node}
  : M RcVar :=
  match node with
  | Subexpr lhs rhs offset =>
      let* _ := set_ctx_offset offset in
      let* left_result := interpret self data lhs in
      interpret self left_result rhs
  | Field name offset =>
      let* _ := set_ctx_offset offset in
      ret (match get_value data name with Some v => v | None => VNull end)
  | Identity offset =>
      let* _ := set_ctx_offset offset in
      ret data
  | Literal value offset =>
      let* _ := set_ctx_offset offset in
      ret value
  | Index idx offset =>
      let* _ := set_ctx_offset offset in
      let found :=
        if idx >=? 0 then Some (get_index data (Z.to_nat idx))
        else match checked_i32 (-1 * idx) with
             | Some m => Some (get_negative_index data (Z.to_nat m))
             | None => None
             end in
      match found with
      | Some (Some value) => ret value
      | Some None => ret VNull
      | None => panic
      end
  | Or lhs rhs offset =>
      let* _ := set_ctx_offset offset in
      let* left_ := interpret self data lhs in
      if is_truthy left_ then ret left_ else interpret self data rhs
  | And lhs rhs offset =>
      let* _ := set_ctx_offset offset in
      let* left_ := interpret self data lhs in
      if negb (is_truthy left_) then ret left_ else interpret self data rhs
  | Not node offset =>
      let* _ := set_ctx_offset offset in
      let* result := interpret self data node in
      ret (VBool (negb (is_truthy result)))
  | Condition predicate then_ offset =>
      let* _ := set_ctx_offset offset in
      let* cond_result := interpret self data predicate in
      if is_truthy cond_result then interpret self data then_ else ret VNull
  | Comparison comparator lhs rhs offset =>
      let* _ := set_ctx_offset offset in
      let* left_ := interpret self data lhs in
      let* right_ := interpret self data rhs in
      ret (match compare left_ comparator right_ with
           | Some result => VBool result
           | None => VNull
           end)
  | ObjectValues node offset =>
      let* _ := set_ctx_offset offset in
      let* subject := interpret self data node in
      match subject with
      | VObject v => ret (VArray (map snd v))
      | _ => ret VNull
      end
  | Projection lhs rhs offset =>
      let* _ := set_ctx_offset offset in
      let* l := interpret self data lhs in
      match as_array l with
      | None => ret VNull
      | Some left_ =>
          let* collected := projection_loop (fun element => interpret self element rhs) left_ [] in
          ret (VArray collected)
      end
  | Flatten node offset =>
      let* _ := set_ctx_offset offset in
      let* n := interpret self data node in
      match as_array n with
      | None => ret VNull
      | Some a => ret (VArray (flatten_loop a []))
      end
  | MultiList elements offset =>
      let* _ := set_ctx_offset offset in
      if is_null data then ret VNull
      else
        let* collected := push_each (interpret self data) elements [] in
        ret (VArray collected)
  | MultiHash elements offset =>
      let* _ := set_ctx_offset offset in
      if is_null data then ret VNull
      else
        let* collected := multihash_loop (interpret self data) elements [] in
        ret (VObject collected)
  | Function name args offset =>
      let* _ := set_ctx_offset offset in
      let* fn_args := push_each (interpret self data) args [] in
      (* Reset the offset so that it points to the function being evaluated. *)
      let* _ := set_ctx_offset offset in
      match functions_get (functions self) name with
      | Some f => f fn_args
      | None =>
          let* ctx := get_ctx in
          raise (UnknownFunction (create_coordinates ctx) (expression ctx) name)
      end
  | Expref ast offset =>
      let* _ := set_ctx_offset offset in
      ret (VExpref ast)
  | Slice start stop step offset =>
      let* _ := set_ctx_offset offset in
      if step =? 0 then
        let* ctx := get_ctx in
        raise (InvalidSlice (create_coordinates ctx) (expression ctx))
      else
        match as_array data with
        | Some array =>
            match slice array start stop step with
            | Some r => ret (VArray r)
            | None => panic
            end
        | None => ret VNull
        end
  end.

(** ** Reading aids for the statements *)

(** Run [f] on each item in order, failing on the first error. *)
Fixpoint mapM {A B} (f : A -> M B) (xs : list A) : M (list B) :=
  match xs with
  | [] => ret []
  | x :: rest =>
      let* y := f x in
      let* ys := mapM f rest in
      ret (y :: ys)
  end.

(** One level of flattening of one element. *)
Definition flatten_one (element : RcVar) : list RcVar :=
  match element with VArray a => a | _ => [element] end.

(** A [MultiHash] pair evaluated, key then value. *)
Definition eval_pair (f : Ast -> M RcVar) (kvp : Ast * Ast) : M (RcVar * RcVar) :=
  let* key := f (kvp_key kvp) in
  let* value := f (kvp_value kvp) in
  ret (key, value).

(** The pairs whose keys are all strings. *)
Fixpoint string_keys (kvs : list (RcVar * RcVar)) : option (list (string * RcVar)) :=
  match kvs with
  | [] => Some []
  | (VString s, v) :: rest =>
      match string_keys rest with Some r => Some ((s, v) :: r) | None => None end
  | _ :: _ => None
  end.

(** The value of the last pair with key [k]. *)
Definition last_write (k : string) (kvs : list (string * RcVar)) : option RcVar :=
  match find (fun kv => String.eqb (fst kv) k) (rev kvs) with
  | Some kv => Some (snd kv)
  | None => None
  end.

Definition key_lt (p q : string * RcVar) : Prop := String.compare (fst p) (fst q) = Lt.

(** The slice as the spec words it, over unbounded integers: defaults and
    normalisation of the endpoints, then the indices [a + k * step] for
    every [k] with [a + k * step] strictly before [b] in the direction of
    the step. *)
Definition claim_endpoint (len e step : Z) : Z :=
  let e1 := if e <? 0 then e + len else e in
  if e1 <? 0 then (if step <? 0 then -1 else 0)
  else if e1 >=? len then (if step <? 0 then len - 1 else len)
  else e1.

Definition claim_slice (array : list RcVar) (start stop : option Z) (step : Z)
  : list RcVar :=
  let len := Z.of_nat (List.length array) in
  if len =? 0 then [] else
  let a := match start with
           | Some e => claim_endpoint len e step
           | None => if step <? 0 then len - 1 else 0
           end in
  let b := match stop with
           | Some e => claim_endpoint len e step
           | None => if step <? 0 then -1 else len
           end in
  let count :=
    if step >? 0 then (if a <? b then (b - a + step - 1) / step else 0)
    else (if b <? a then (a - b - step - 1) / (- step) else 0) in
  map (fun k => nth (Z.to_nat (a + Z.of_nat k * step)) array VNull)
      (seq 0 (Z.to_nat count)).

(** The elements at [i], [i + step], ... ([n] of them). *)
Fixpoint stride (array : list RcVar) (i step : Z) (n : nat) : list RcVar :=
  match n with
  | O => []
  | S n' => nth (Z.to_nat i) array VNull :: stride array (i + step) step n'
  end.

Definition in_i32 (z : Z) : Prop := i32_min <= z <= i32_max.

(** ** Lemmas on the loops *)

Lemma bind_ret {A B} (a : A) (k : A -> M B) (c : Context) :
  bind (ret a) k c = k a c.
Proof. reflexivity. Qed.

Lemma push_each_mapM (f : Ast -> M RcVar) (nodes : list Ast) :
  forall collected c,
  push_each f nodes collected c = (let* vs := mapM f nodes in ret (collected ++ vs)) c.
Proof.
  induction nodes as [|node rest IH]; intros collected c; cbn.
  - unfold ret; rewrite app_nil_r; reflexivity.
  - unfold bind, ret; destruct (f node c) as [[v|e|] c1]; try reflexivity.
    rewrite IH; unfold bind, ret.
    destruct (mapM f rest c1) as [[vs|e|] c2]; try reflexivity.
    rewrite <- app_assoc; reflexivity.
Qed.

Lemma projection_loop_mapM (f : RcVar -> M RcVar) (left_ : list RcVar) :
  forall collected c,
  projection_loop f left_ collected c
  = (let* rs := mapM f left_ in
     ret (collected ++ filter (fun v => negb (is_null v)) rs)) c.
Proof.
  induction left_ as [|element rest IH]; intros collected c; cbn.
  - unfold ret; rewrite app_nil_r; reflexivity.
  - unfold bind, ret; destruct (f element c) as [[v|e|] c1]; try reflexivity.
    destruct (negb (is_null v)) eqn:Hv; rewrite IH; unfold bind, ret;
      destruct (mapM f rest c1) as [[vs|e|] c2]; try reflexivity; cbn; rewrite Hv;
      try rewrite <- app_assoc; reflexivity.
Qed.

Lemma flatten_loop_flat_map (a : list RcVar) :
  forall collected, flatten_loop a collected = collected ++ flat_map flatten_one a.
Proof.
  induction a as [|element rest IH]; intros collected; cbn.
  - rewrite app_nil_r; reflexivity.
  - destruct element; cbn; rewrite IH, <- app_assoc; reflexivity.
Qed.

Lemma multihash_loop_ok (f : Ast -> M RcVar) (elements : list (Ast * Ast)) :
  forall collected c kvs skvs c',
  mapM (eval_pair f) elements c = (Ok kvs, c') ->
  string_keys kvs = Some skvs ->
  multihash_loop f elements collected c
  = (Ok (fold_left (fun m kv => btree_insert (fst kv) (snd kv) m) skvs collected), c').
Proof.
  induction elements as [|[k v] rest IH]; intros collected c kvs skvs c' Hpairs Hkeys.
  - cbn in Hpairs; injection Hpairs as <- <-; cbn in Hkeys; injection Hkeys as <-; reflexivity.
  - cbn in Hpairs; unfold bind, ret in Hpairs; unfold eval_pair at 1 in Hpairs.
    unfold kvp_key, kvp_value, bind, ret in Hpairs; cbn in Hpairs.
    destruct (f k c) as [[key|e|] c1] eqn:Hk; try discriminate.
    destruct (f v c1) as [[value|e|] c2] eqn:Hv; try discriminate.
    destruct (mapM (eval_pair f) rest c2) as [[kvs'|e|] c3] eqn:Hrest; try discriminate.
    injection Hpairs as <- <-.
    destruct key; try discriminate; cbn in Hkeys.
    destruct (string_keys kvs') as [skvs'|] eqn:Hkeys'; try discriminate.
    injection Hkeys as <-.
    cbn; unfold bind; rewrite Hk, Hv.
    exact (IH _ _ _ _ _ Hrest Hkeys').
Qed.

Lemma multihash_loop_invalid (f : Ast -> M RcVar) (pre : list (Ast * Ast)) :
  forall k v post collected c kvs skvs c1 key c2 value c3,
  mapM (eval_pair f) pre c = (Ok kvs, c1) ->
  string_keys kvs = Some skvs ->
  f k c1 = (Ok key, c2) ->
  (forall s, key <> VString s) ->
  f v c2 = (Ok value, c3) ->
  multihash_loop f (pre ++ (k, v) :: post) collected c
  = (Error (InvalidKey (offset c3) (expression c3) (get_type key)), c3).
Proof.
  induction pre as [|[k0 v0] rest IH];
    intros k v post collected c kvs skvs c1 key c2 value c3 Hpre Hkeys Hk Hnot Hv.
  - cbn in Hpre; injection Hpre as <- <-.
    cbn; unfold bind; rewrite Hk, Hv.
    destruct key; try reflexivity; exfalso; exact (Hnot s eq_refl).
  - cbn in Hpre; unfold bind, ret in Hpre; unfold eval_pair at 1 in Hpre.
    unfold kvp_key, kvp_value, bind, ret in Hpre; cbn in Hpre.
    destruct (f k0 c) as [[key0|e|] d1] eqn:Hk0; try discriminate.
    destruct (f v0 d1) as [[value0|e|] d2] eqn:Hv0; try discriminate.
    destruct (mapM (eval_pair f) rest d2) as [[kvs'|e|] d3] eqn:Hrest; try discriminate.
    injection Hpre as <- <-.
    destruct key0; try discriminate; cbn in Hkeys.
    destruct (string_keys kvs') as [skvs'|] eqn:Hkeys'; try discriminate.
    cbn; unfold bind; rewrite Hk0, Hv0.
    exact (IH _ _ _ _ _ _ _ _ _ _ _ _ Hrest Hkeys' Hk Hnot Hv).
Qed.

(** A prefix of pairs that evaluate with string keys only inserts them; the
    loop then continues on the rest from the context they left. *)
Lemma multihash_loop_prefix (f : Ast -> M RcVar) (pre : list (Ast * Ast)) :
  forall rest collected c kvs skvs c1,
  mapM (eval_pair f) pre c = (Ok kvs, c1) ->
  string_keys kvs = Some skvs ->
  multihash_loop f (pre ++ rest) collected c
  = multihash_loop f rest (fold_left (fun m kv => btree_insert (fst kv) (snd kv) m) skvs collected) c1.
Proof.
  induction pre as [|[k0 v0] rest0 IH]; intros rest collected c kvs skvs c1 Hpre Hkeys.
  - cbn in Hpre; injection Hpre as <- <-; cbn in Hkeys; injection Hkeys as <-; reflexivity.
  - cbn in Hpre; unfold bind, ret in Hpre; unfold eval_pair at 1 in Hpre.
    unfold kvp_key, kvp_value, bind, ret in Hpre; cbn in Hpre.
    destruct (f k0 c) as [[key0|e|] d1] eqn:Hk0; try discriminate.
    destruct (f v0 d1) as [[value0|e|] d2] eqn:Hv0; try discriminate.
    destruct (mapM (eval_pair f) rest0 d2) as [[kvs'|e|] d3] eqn:Hrest; try discriminate.
    injection Hpre as <- <-.
    destruct key0; try discriminate; cbn in Hkeys.
    destruct (string_keys kvs') as [skvs'|] eqn:Hkeys'; try discriminate.
    injection Hkeys as <-.
    cbn; unfold bind; rewrite Hk0, Hv0.
    exact (IH _ _ _ _ _ _ Hrest Hkeys').
Qed.

(** ** Lemmas on [String.compare] and [btree_insert] *)

Lemma ascii_compare_lt (a b : Ascii.ascii) :
  Ascii.compare a b = Lt <-> (Ascii.N_of_ascii a < Ascii.N_of_ascii b)%N.
Proof. unfold Ascii.compare; apply N.compare_lt_iff. Qed.

Lemma string_compare_refl (s : string) : String.compare s s = Eq.
Proof.
  induction s as [|a s IH]; cbn; [reflexivity|].
  unfold Ascii.compare; rewrite N.compare_refl; exact IH.
Qed.

Lemma string_compare_lt_trans (s1 s2 s3 : string) :
  String.compare s1 s2 = Lt -> String.compare s2 s3 = Lt -> String.compare s1 s3 = Lt.
Proof.
  revert s2 s3; induction s1 as [|a s1 IH]; intros [|b s2] [|c s3]; cbn;
    try discriminate; try reflexivity.
  intros H12 H23.
  destruct (Ascii.compare a b) eqn:Hab; try discriminate;
  destruct (Ascii.compare b c) eqn:Hbc; try discriminate.
  - apply Ascii.compare_eq_iff in Hab, Hbc; subst.
    unfold Ascii.compare; rewrite N.compare_refl; exact (IH _ _ H12 H23).
  - apply Ascii.compare_eq_iff in Hab; subst; rewrite Hbc; reflexivity.
  - apply Ascii.compare_eq_iff in Hbc; subst; rewrite Hab; reflexivity.
  - apply ascii_compare_lt in Hab, Hbc.
    assert (Hac : Ascii.compare a c = Lt)
      by (apply ascii_compare_lt; exact (N.lt_trans _ _ _ Hab Hbc)).
    rewrite Hac; reflexivity.
Qed.

Lemma string_compare_gt_lt (s1 s2 : string) :
  String.compare s1 s2 = Gt -> String.compare s2 s1 = Lt.
Proof.
  intros H; rewrite String.compare_antisym, H; reflexivity.
Qed.

Lemma string_compare_eq_eqb (s1 s2 : string) :
  String.eqb s1 s2 = match String.compare s1 s2 with Eq => true | _ => false end.
Proof.
  destruct (String.compare s1 s2) eqn:H.
  - apply String.compare_eq_iff in H; subst; apply String.eqb_refl.
  - apply String.eqb_neq; intros ->; rewrite string_compare_refl in H; discriminate.
  - apply String.eqb_neq; intros ->; rewrite string_compare_refl in H; discriminate.
Qed.

Lemma btree_insert_sorted (k : string) (v : RcVar) (m : list (string * RcVar)) :
  Sorted key_lt m -> Sorted key_lt (btree_insert k v m).
Proof.
  induction m as [|[k' v'] rest IH]; intros Hm; cbn.
  - repeat constructor.
  - apply Sorted_inv in Hm as [Hrest Hhd].
    destruct (String.compare k k') eqn:Hc.
    + apply String.compare_eq_iff in Hc; subst.
      constructor; [exact Hrest|].
      inversion Hhd; constructor; assumption.
    + constructor; [constructor; assumption|].
      constructor; exact Hc.
    + constructor; [exact (IH Hrest)|].
      destruct rest as [|[k'' v''] rest']; cbn.
      * constructor; unfold key_lt; cbn; apply string_compare_gt_lt; exact Hc.
      * inversion Hhd as [|? ? Hlt]; subst.
        destruct (String.compare k k'') eqn:Hc'; constructor; unfold key_lt in *; cbn in *.
        -- apply String.compare_eq_iff in Hc'; subst; exact Hlt.
        -- apply string_compare_gt_lt; exact Hc.
        -- exact Hlt.
Qed.

Lemma map_get_btree_insert (k : string) (v : RcVar) (m : list (string * RcVar)) (k' : string) :
  map_get (btree_insert k v m) k' = if String.eqb k k' then Some v else map_get m k'.
Proof.
  induction m as [|[k0 v0] rest IH]; cbn; [reflexivity|].
  destruct (String.compare k k0) eqn:Hc; cbn.
  - apply String.compare_eq_iff in Hc; subst.
    destruct (String.eqb k0 k'); reflexivity.
  - reflexivity.
  - rewrite IH.
    destruct (String.eqb k0 k') eqn:H0, (String.eqb k k') eqn:H1; try reflexivity.
    apply String.eqb_eq in H0, H1; subst.
    rewrite string_compare_refl in Hc; discriminate.
Qed.

Lemma fold_insert_sorted (skvs acc : list (string * RcVar)) :
  Sorted key_lt acc ->
  Sorted key_lt (fold_left (fun m kv => btree_insert (fst kv) (snd kv) m) skvs acc).
Proof.
  revert acc; induction skvs as [|kv rest IH]; intros acc Hacc; cbn; [exact Hacc|].
  apply IH, btree_insert_sorted, Hacc.
Qed.

Lemma find_app {A} (p : A -> bool) (l l' : list A) :
  find p (l ++ l') = match find p l with Some x => Some x | None => find p l' end.
Proof.
  induction l as [|x l IH]; cbn; [reflexivity|].
  destruct (p x); [reflexivity|exact IH].
Qed.

Lemma last_write_cons (k : string) (kv : string * RcVar) (rest : list (string * RcVar)) :
  last_write k (kv :: rest)
  = match last_write k rest with
    | Some v => Some v
    | None => if String.eqb (fst kv) k then Some (snd kv) else None
    end.
Proof.
  unfold last_write; cbn; rewrite find_app.
  destruct (find _ (rev rest)); [reflexivity|cbn].
  destruct (String.eqb (fst kv) k); reflexivity.
Qed.

Lemma map_get_fold_insert (skvs acc : list (string * RcVar)) (k : string) :
  map_get (fold_left (fun m kv => btree_insert (fst kv) (snd kv) m) skvs acc) k
  = match last_write k skvs with Some v => Some v | None => map_get acc k end.
Proof.
  revert acc; induction skvs as [|kv rest IH]; intros acc; cbn; [reflexivity|].
  rewrite IH, last_write_cons, map_get_btree_insert.
  destruct (last_write k rest); [reflexivity|].
  destruct (String.eqb (fst kv) k); reflexivity.
Qed.

Lemma in_keys_map_get {A} (m : list (string * A)) (k : string) :
  In k (map fst m) <-> map_get m k <> None.
Proof.
  induction m as [|[k' v] rest IH]; cbn.
  - split; [intros []|intros H; exact (H eq_refl)].
  - destruct (String.eqb k' k) eqn:He.
    + apply String.eqb_eq in He; subst; split; [discriminate|auto].
    + apply String.eqb_neq in He; rewrite <- IH; split.
      * intros [->|H]; [contradiction|exact H].
      * intros H; right; exact H.
Qed.

Lemma last_write_in (skvs : list (string * RcVar)) (k : string) :
  last_write k skvs <> None <-> In k (map fst skvs).
Proof.
  induction skvs as [|kv rest IH]; [cbn; split; [intros H; exact (H eq_refl)|intros []]|].
  rewrite last_write_cons; cbn.
  destruct (last_write k rest) eqn:Hl.
  - split; [intros _; right; apply IH; discriminate|discriminate].
  - destruct (String.eqb (fst kv) k) eqn:He.
    + apply String.eqb_eq in He; split; [intros _; left; exact He|discriminate].
    + apply String.eqb_neq in He; split.
      * intros H; exfalso; exact (H eq_refl).
      * intros [H|H]; [contradiction|apply IH in H; contradiction].
Qed.

Lemma key_lt_trans : Relations_1.Transitive key_lt.
Proof.
  intros [a x] [b y] [c z]; unfold key_lt; cbn; apply string_compare_lt_trans.
Qed.

Lemma sorted_keys_nodup (m : list (string * RcVar)) :
  Sorted key_lt m -> NoDup (map fst m).
Proof.
  intros Hs; apply Sorted_StronglySorted in Hs; [|exact key_lt_trans].
  induction Hs as [|[k v] rest Hrest IH Hall]; cbn; constructor; [|exact IH].
  intros Hin; apply in_map_iff in Hin as [[k' v'] [Heq Hin]]; cbn in Heq; subst.
  rewrite Forall_forall in Hall; specialize (Hall _ Hin); unfold key_lt in Hall; cbn in Hall.
  rewrite string_compare_refl in Hall; discriminate.
Qed.

(** ** Unfolding the arms of [interpret] *)

Lemma interpret_multihash (self : TreeInterpreter) (data : RcVar) elements off ctx :
  interpret self data (MultiHash elements off) ctx
  = (if is_null data then ret VNull
     else let* collected := multihash_loop (interpret self data) elements [] in
          ret (VObject collected)) (set_offset off ctx).
Proof. reflexivity. Qed.

Lemma multihash_all_strings (self : TreeInterpreter) (data : RcVar) elements off ctx
  kvs skvs c' :
  data <> VNull ->
  mapM (eval_pair (interpret self data)) elements (set_offset off ctx) = (Ok kvs, c') ->
  string_keys kvs = Some skvs ->
  interpret self data (MultiHash elements off) ctx
  = (Ok (VObject (fold_left (fun m kv => btree_insert (fst kv) (snd kv) m) skvs [])), c').
Proof.
  intros Hdata Hpairs Hkeys; rewrite interpret_multihash.
  destruct data; try (exfalso; exact (Hdata eq_refl));
    cbn [is_null]; unfold bind; rewrite (multihash_loop_ok _ _ [] _ _ _ _ Hpairs Hkeys);
    reflexivity.
Qed.

Lemma multihash_invalid_key (self : TreeInterpreter) (data : RcVar) elements off ctx
  pre k v post kvs skvs c1 key c2 value c3 :
  data <> VNull ->
  elements = pre ++ (k, v) :: post ->
  mapM (eval_pair (interpret self data)) pre (set_offset off ctx) = (Ok kvs, c1) ->
  string_keys kvs = Some skvs ->
  interpret self data k c1 = (Ok key, c2) ->
  (forall s, key <> VString s) ->
  interpret self data v c2 = (Ok value, c3) ->
  interpret self data (MultiHash elements off) ctx
  = (Error (InvalidKey (offset c3) (expression c3) (get_type key)), c3).
Proof.
  intros Hdata -> Hpre Hkeys Hk Hnot Hv; rewrite interpret_multihash.
  destruct data; try (exfalso; exact (Hdata eq_refl));
    cbn [is_null]; unfold bind;
    rewrite (multihash_loop_invalid _ _ _ _ _ [] _ _ _ _ _ _ _ _ Hpre Hkeys Hk Hnot Hv);
    reflexivity.
Qed.

Lemma multihash_key_fails (self : TreeInterpreter) (data : RcVar) elements off ctx
  pre k v post kvs skvs c1 o c2 :
  data <> VNull ->
  elements = pre ++ (k, v) :: post ->
  mapM (eval_pair (interpret self data)) pre (set_offset off ctx) = (Ok kvs, c1) ->
  string_keys kvs = Some skvs ->
  interpret self data k c1 = (o, c2) ->
  (forall x, o <> Ok x) ->
  interpret self data (MultiHash elements off) ctx = (o, c2).
Proof.
  intros Hdata -> Hpre Hkeys Hk Hfail; rewrite interpret_multihash.
  assert (Hn : is_null data = false) by (destruct data; [exfalso; exact (Hdata eq_refl)|..];
                                         reflexivity).
  rewrite Hn; unfold bind at 1.
  rewrite (multihash_loop_prefix _ _ _ _ _ _ _ _ Hpre Hkeys); cbn; unfold bind; rewrite Hk.
  destruct o as [x|e|]; [exfalso; exact (Hfail x eq_refl)|reflexivity|reflexivity].
Qed.

Lemma multihash_value_fails (self : TreeInterpreter) (data : RcVar) elements off ctx
  pre k v post kvs skvs c1 key c2 o c3 :
  data <> VNull ->
  elements = pre ++ (k, v) :: post ->
  mapM (eval_pair (interpret self data)) pre (set_offset off ctx) = (Ok kvs, c1) ->
  string_keys kvs = Some skvs ->
  interpret self data k c1 = (Ok key, c2) ->
  interpret self data v c2 = (o, c3) ->
  (forall x, o <> Ok x) ->
  interpret self data (MultiHash elements off) ctx = (o, c3).
Proof.
  intros Hdata -> Hpre Hkeys Hk Hv Hfail; rewrite interpret_multihash.
  assert (Hn : is_null data = false) by (destruct data; [exfalso; exact (Hdata eq_refl)|..];
                                         reflexivity).
  rewrite Hn; unfold bind at 1.
  rewrite (multihash_loop_prefix _ _ _ _ _ _ _ _ Hpre Hkeys); cbn; unfold bind; rewrite Hk, Hv.
  destruct o as [x|e|]; [exfalso; exact (Hfail x eq_refl)|reflexivity|reflexivity].
Qed.

(** ** Slice: the parts that do not depend on the loop *)

Lemma slice_zero_step (self : TreeInterpreter) (data : RcVar) start stop off ctx :
  interpret self data (Slice start stop 0 off) ctx
  = (Error (InvalidSlice off (expression ctx)), set_offset off ctx).
Proof. reflexivity. Qed.

Lemma slice_empty_array (self : TreeInterpreter) start stop step off ctx :
  step <> 0 ->
  interpret self (VArray []) (Slice start stop step off) ctx
  = (Ok (VArray []), set_offset off ctx).
Proof.
  intros Hstep; cbn; unfold bind, set_ctx_offset, ret.
  destruct (Z.eqb_spec step 0); [contradiction|reflexivity].
Qed.

Lemma slice_not_array (self : TreeInterpreter) (data : RcVar) start stop step off ctx :
  step <> 0 -> as_array data = None ->
  interpret self data (Slice start stop step off) ctx = (Ok VNull, set_offset off ctx).
Proof.
  intros Hstep Hdata; cbn; unfold bind, set_ctx_offset, ret.
  destruct (Z.eqb_spec step 0); [contradiction|]; rewrite Hdata; reflexivity.
Qed.

(** A [Slice] ends in an error only for a zero step. *)
Lemma slice_error_zero_step (self : TreeInterpreter) (data : RcVar) start stop step off ctx e c :
  interpret self data (Slice start stop step off) ctx = (Error e, c) ->
  step = 0 /\ e = InvalidSlice off (expression ctx).
Proof.
  cbn; unfold bind, set_ctx_offset, ret, get_ctx, raise, panic.
  destruct (Z.eqb_spec step 0) as [->|Hstep].
  - intros H; injection H as <- _; split; reflexivity.
  - destruct (as_array data); [destruct (slice _ _ _ _)|]; discriminate.
Qed.

(** ** Index and Field: the cases where the index can be negated *)

Lemma field_rule (self : TreeInterpreter) (data : RcVar) name off ctx :
  interpret self data (Field name off) ctx
  = (Ok (match get_value data name with Some v => v | None => VNull end),
     set_offset off ctx).
Proof. reflexivity. Qed.

Lemma index_rule (self : TreeInterpreter) (data : RcVar) idx off ctx :
  i32_min < idx <= i32_max ->
  interpret self data (Index idx off) ctx
  = (Ok (match (if idx >=? 0 then get_index data (Z.to_nat idx)
               else get_negative_index data (Z.to_nat (- idx))) with
        | Some v => v
        | None => VNull
        end), set_offset off ctx).
Proof.
  intros Hidx.
  assert (Hc : checked_i32 (-1 * idx) = Some (- idx)).
  { unfold checked_i32, i32_min, i32_max in *.
    replace ((- 2 ^ 31 <=? -1 * idx) && (-1 * idx <=? 2 ^ 31 - 1)) with true
      by (symmetry; apply andb_true_iff; split; apply Z.leb_le; lia).
    f_equal; lia. }
  cbn -[checked_i32 Z.mul Z.opp Z.geb]; unfold bind, set_ctx_offset, ret, panic.
  destruct (idx >=? 0) eqn:Hge; [destruct (get_index _ _); reflexivity|].
  rewrite Hc.
  destruct (get_negative_index _ _); reflexivity.
Qed.

(** ** Slice: agreement with the stride slice when no [i32] overflows *)

Lemma usize_as_i32_small (n : nat) :
  Z.of_nat n <= i32_max -> usize_as_i32 n = Z.of_nat n.
Proof.
  unfold usize_as_i32, i32_max; intros Hn.
  rewrite Z.mod_small by lia.
  destruct (Z.leb_spec (Z.of_nat n) (2 ^ 31 - 1)); [reflexivity|lia].
Qed.

Lemma checked_i32_in (z : Z) : in_i32 z -> checked_i32 z = Some z.
Proof.
  unfold checked_i32, in_i32; intros [H1 H2].
  apply Z.leb_le in H1, H2; rewrite H1, H2; reflexivity.
Qed.

Ltac zcases :=
  repeat match goal with
  | |- context [Z.ltb ?a ?b] => destruct (Z.ltb_spec a b)
  | |- context [Z.leb ?a ?b] => destruct (Z.leb_spec a b)
  | |- context [Z.geb ?a ?b] => rewrite (Z.geb_leb a b)
  | |- context [Z.gtb ?a ?b] => rewrite (Z.gtb_ltb a b)
  end.

Lemma adjust_endpoint_agrees (len e step : Z) :
  0 < len <= i32_max -> in_i32 e ->
  adjust_slice_endpoint len e step = Some (claim_endpoint len e step).
Proof.
  intros Hlen He; unfold adjust_slice_endpoint, claim_endpoint.
  destruct (Z.ltb_spec e 0) as [Hneg|Hpos].
  - rewrite checked_i32_in by (unfold in_i32, i32_min, i32_max in *; lia).
    zcases; first [reflexivity | lia].
  - zcases; try reflexivity; try lia.
    rewrite checked_i32_in by (unfold in_i32, i32_min, i32_max in *; lia); reflexivity.
Qed.

Lemma claim_endpoint_range (len e step : Z) :
  0 < len ->
  (step > 0 -> 0 <= claim_endpoint len e step <= len)
  /\ (step < 0 -> -1 <= claim_endpoint len e step <= len - 1).
Proof.
  intros Hlen; unfold claim_endpoint; split; intros Hs; zcases; lia.
Qed.

Lemma index_i32_in (array : list RcVar) (i : Z) :
  0 <= i < Z.of_nat (List.length array) ->
  index_i32 array i = Some (nth (Z.to_nat i) array VNull).
Proof.
  intros Hi; unfold index_i32.
  destruct (Z.leb_spec 0 i); [|lia].
  apply nth_error_nth'; lia.
Qed.

Lemma slice_loop_stride (array : list RcVar) (b step : Z) (n : nat) :
  forall fuel i,
  (n < fuel)%nat ->
  (forall k, (k < n)%nat ->
     (if step >? 0 then i + Z.of_nat k * step <? b else b <? i + Z.of_nat k * step) = true
     /\ 0 <= i + Z.of_nat k * step < Z.of_nat (List.length array)
     /\ in_i32 (i + Z.of_nat k * step + step)) ->
  (if step >? 0 then i + Z.of_nat n * step <? b else b <? i + Z.of_nat n * step) = false ->
  slice_loop array b step fuel i = Some (stride array i step n).
Proof.
  induction n as [|n IH]; intros [|fuel] i Hfuel Hin Hlast; try lia.
  - change (Z.of_nat 0) with 0 in Hlast; rewrite Z.mul_0_l, Z.add_0_r in Hlast.
    cbn [slice_loop]; rewrite Hlast; reflexivity.
  - destruct (Hin 0%nat ltac:(lia)) as (Hc & Hidx & Hstep).
    change (Z.of_nat 0) with 0 in Hc, Hidx, Hstep.
    rewrite Z.mul_0_l, Z.add_0_r in Hc, Hidx, Hstep.
    cbn [slice_loop]; rewrite Hc, (index_i32_in _ _ Hidx), (checked_i32_in _ Hstep).
    cbn [option_map stride].
    rewrite (IH fuel (i + step)); [reflexivity|lia| |].
    + intros k Hk; destruct (Hin (S k) ltac:(lia)) as (Hc' & Hidx' & Hstep').
      replace (i + step + Z.of_nat k * step) with (i + Z.of_nat (S k) * step) by lia.
      exact (conj Hc' (conj Hidx' Hstep')).
    + replace (i + step + Z.of_nat n * step) with (i + Z.of_nat (S n) * step) by lia.
      exact Hlast.
Qed.

Lemma map_seq_stride (array : list RcVar) (a step : Z) (n : nat) :
  forall s,
  map (fun k => nth (Z.to_nat (a + Z.of_nat k * step)) array VNull) (seq s n)
  = stride array (a + Z.of_nat s * step) step n.
Proof.
  induction n as [|n IH]; intros s; [reflexivity|].
  cbn [seq map stride]; rewrite IH.
  replace (a + Z.of_nat (S s) * step) with (a + Z.of_nat s * step + step) by lia.
  reflexivity.
Qed.

Lemma ceil_div_bounds (d s : Z) :
  0 < s -> 0 < d ->
  1 <= (d + s - 1) / s <= d
  /\ ((d + s - 1) / s - 1) * s < d
  /\ d <= (d + s - 1) / s * s.
Proof.
  intros Hs Hd.
  pose proof (Z.div_mod (d + s - 1) s ltac:(lia)) as Hdm.
  pose proof (Z.mod_pos_bound (d + s - 1) s Hs) as Hr.
  set (q := (d + s - 1) / s) in *; set (r := (d + s - 1) mod s) in *.
  assert (d <= q * s) by lia.
  assert ((q - 1) * s < d) by lia.
  split; [split|split]; nia.
Qed.

(** Where no [i32] operation of [slice] can overflow (an array shorter than
    [2^31], endpoints and step in [i32], and for a positive step [len + step]
    within [i32]), [slice] is the stride slice of the spec.  In particular its
    loop never runs out of fuel there. *)
Lemma slice_agrees_without_overflow (array : list RcVar) (start stop : option Z) (step : Z) :
  Z.of_nat (List.length array) <= i32_max ->
  step <> 0 -> in_i32 step ->
  (forall e, start = Some e -> in_i32 e) ->
  (forall e, stop = Some e -> in_i32 e) ->
  (step > 0 -> Z.of_nat (List.length array) + step <= i32_max) ->
  slice array start stop step = Some (claim_slice array start stop step).
Proof.
  intros Hlen Hstep Hsi Hstart Hstop Hover.
  unfold slice, claim_slice; rewrite usize_as_i32_small by exact Hlen.
  cbv zeta.
  remember (Z.of_nat (List.length array)) as len eqn:Hlen_def.
  destruct (Z.eqb_spec len 0) as [H0|H0]; [reflexivity|].
  assert (Hlenpos : 0 < len) by lia.
  remember (match start with
            | Some e => claim_endpoint len e step
            | None => if step <? 0 then len - 1 else 0
            end) as a eqn:Ha_def.
  remember (match stop with
            | Some e => claim_endpoint len e step
            | None => if step <? 0 then -1 else len
            end) as b eqn:Hb_def.
  assert (Ha : match start with
               | Some starting_index => adjust_slice_endpoint len starting_index step
               | None => if step <? 0 then checked_i32 (len - 1) else Some 0
               end = Some a).
  { subst a; destruct start as [e|].
    - apply adjust_endpoint_agrees; [lia|apply Hstart; reflexivity].
    - destruct (Z.ltb_spec step 0); [|reflexivity].
      apply checked_i32_in; unfold in_i32, i32_min, i32_max in *; lia. }
  assert (Hb : match stop with
               | Some ending_index => adjust_slice_endpoint len ending_index step
               | None => if step <? 0 then Some (-1) else Some len
               end = Some b).
  { subst b; destruct stop as [e|].
    - apply adjust_endpoint_agrees; [lia|apply Hstop; reflexivity].
    - destruct (Z.ltb_spec step 0); reflexivity. }
  rewrite Ha, Hb.
  assert (Hra : (step > 0 -> 0 <= a <= len) /\ (step < 0 -> -1 <= a <= len - 1)).
  { subst a; destruct start as [e|]; [apply claim_endpoint_range; lia|].
    split; intros Hs; destruct (Z.ltb_spec step 0); lia. }
  assert (Hrb : (step > 0 -> 0 <= b <= len) /\ (step < 0 -> -1 <= b <= len - 1)).
  { subst b; destruct stop as [e|]; [apply claim_endpoint_range; lia|].
    split; intros Hs; destruct (Z.ltb_spec step 0); lia. }
  rewrite map_seq_stride; change (Z.of_nat 0) with 0; rewrite Z.mul_0_l, Z.add_0_r.
  destruct (Z.ltb_spec 0 step) as [Hpos|Hneg].
  - (* positive step: [while i < b] *)
    assert (Hg : (step >? 0) = true) by (rewrite Z.gtb_ltb; apply Z.ltb_lt; lia).
    rewrite Hg.
    specialize (Hover ltac:(lia)).
    destruct (proj1 Hra ltac:(lia)) as [Ha0 Ha1].
    destruct (proj1 Hrb ltac:(lia)) as [Hb0 Hb1].
    destruct (Z.ltb_spec a b) as [Hab|Hab].
    + pose proof (ceil_div_bounds (b - a) step Hpos ltac:(lia)) as (Hq & Hq1 & Hq2).
      set (q := (b - a + step - 1) / step) in *.
      apply slice_loop_stride.
      * lia.
      * intros k Hk.
        assert (Hkq : Z.of_nat k <= q - 1) by lia.
        assert (Hks : Z.of_nat k * step <= (q - 1) * step)
          by (apply Z.mul_le_mono_nonneg_r; lia).
        assert (Hk0 : 0 <= Z.of_nat k * step) by (apply Z.mul_nonneg_nonneg; lia).
        rewrite Hg; split; [apply Z.ltb_lt; lia|].
        unfold in_i32, i32_min, i32_max in *; lia.
      * rewrite Hg, Z2Nat.id by lia; apply Z.ltb_ge; lia.
    + apply (slice_loop_stride _ _ _ 0); [lia|intros k Hk; lia|].
      change (Z.of_nat 0) with 0; rewrite Hg, Z.mul_0_l, Z.add_0_r; apply Z.ltb_ge; lia.
  - (* negative step: [while i > b] *)
    assert (Hs : step < 0) by lia.
    assert (Hg : (step >? 0) = false) by (rewrite Z.gtb_ltb; apply Z.ltb_ge; lia).
    rewrite Hg.
    destruct (proj2 Hra Hs) as [Ha0 Ha1].
    destruct (proj2 Hrb Hs) as [Hb0 Hb1].
    destruct (Z.ltb_spec b a) as [Hab|Hab].
    + pose proof (ceil_div_bounds (a - b) (- step) ltac:(lia) ltac:(lia)) as (Hq & Hq1 & Hq2).
      replace (a - b + - step - 1) with (a - b - step - 1) in * by lia.
      set (q := (a - b - step - 1) / - step) in *.
      apply slice_loop_stride.
      * lia.
      * intros k Hk.
        assert (Hkq : Z.of_nat k <= q - 1) by lia.
        assert (Hks : Z.of_nat k * - step <= (q - 1) * - step)
          by (apply Z.mul_le_mono_nonneg_r; lia).
        assert (Hk0 : 0 <= Z.of_nat k * - step) by (apply Z.mul_nonneg_nonneg; lia).
        rewrite Hg; split; [apply Z.ltb_lt; lia|].
        unfold in_i32, i32_min, i32_max in *; lia.
      * rewrite Hg, Z2Nat.id by lia; apply Z.ltb_ge; lia.
    + apply (slice_loop_stride _ _ _ 0); [lia|intros k Hk; lia|].
      change (Z.of_nat 0) with 0; rewrite Hg, Z.mul_0_l, Z.add_0_r; apply Z.ltb_ge; lia.
Qed.

(** ** The claims *)

(** C1 (code_bug).  A [Slice] with a positive step whose last [i += step]
    passes [i32::MAX] panics, where the stride slice of the spec has a
    result: on [[0, 1]] with start 1, no stop and step [2147483647] the
    interpreter panics, while the stride slice is [[1]]. *)
Theorem slice_step_overflow_panics (self : TreeInterpreter) (ctx : Context) :
  fst (interpret self (VArray [VNumber 0; VNumber 1])
         (Slice (Some 1) None 2147483647 0) ctx) = Panic
  /\ claim_slice [VNumber 0; VNumber 1] (Some 1) None 2147483647 = [VNumber 1].
Proof. split; vm_compute; reflexivity. Qed.

(** C2.  [Projection(lhs, rhs)] evaluates [lhs]; a non-array gives null;
    otherwise [rhs] runs on every element in order and the result is the
    array of the non-null results, in order. *)
Theorem projection_rule (self : TreeInterpreter) (data : RcVar) (lhs rhs : Ast)
  (off : nat) (ctx : Context) :
  interpret self data (Projection lhs rhs off) ctx
  = (let* l := interpret self data lhs in
     match as_array l with
     | None => ret VNull
     | Some left_ =>
         let* rs := mapM (fun element => interpret self element rhs) left_ in
         ret (VArray (filter (fun v => negb (is_null v)) rs))
     end) (set_offset off ctx).
Proof.
  cbn [interpret]; unfold bind, set_ctx_offset.
  destruct (interpret self data lhs (set_offset off ctx)) as [[l|e|] c1]; try reflexivity.
  destruct (as_array l) as [left_|]; [|reflexivity].
  rewrite projection_loop_mapM; unfold bind, ret.
  destruct (mapM _ left_ c1) as [[rs|e|] c2]; reflexivity.
Qed.

(** C3 (code_bug).  [Index(i32::MIN)] panics on every input: [-1 * idx]
    overflows before any lookup. *)
Theorem index_min_panics (self : TreeInterpreter) (data : RcVar) (off : nat)
  (ctx : Context) :
  fst (interpret self data (Index (-2147483648) off) ctx) = Panic.
Proof. reflexivity. Qed.

(** C4 (corrected).  [MultiHash]: null input gives null; otherwise the
    pairs run in order, key then value; at the first pair whose key is not
    a string, once its value has evaluated (to anything), the result is
    [InvalidKey] with the key's type; when every key is a string the result
    is an object with strictly ascending keys.  The first failure among the
    evaluations is the result: a failing key, or a failing value (also the
    value of a non-string key, which then wins over [InvalidKey]). *)
Theorem multihash_rule (self : TreeInterpreter) (data : RcVar) (elements : list (Ast * Ast))
  (off : nat) (ctx : Context) :
  (data = VNull ->
   interpret self data (MultiHash elements off) ctx = (Ok VNull, set_offset off ctx))
  /\ (forall pre k v post kvs skvs c1 key c2 value c3,
      data <> VNull ->
      elements = pre ++ (k, v) :: post ->
      mapM (eval_pair (interpret self data)) pre (set_offset off ctx) = (Ok kvs, c1) ->
      string_keys kvs = Some skvs ->
      interpret self data k c1 = (Ok key, c2) ->
      (forall s, key <> VString s) ->
      interpret self data v c2 = (Ok value, c3) ->
      interpret self data (MultiHash elements off) ctx
      = (Error (InvalidKey (offset c3) (expression c3) (get_type key)), c3))
  /\ (forall kvs skvs c',
      data <> VNull ->
      mapM (eval_pair (interpret self data)) elements (set_offset off ctx) = (Ok kvs, c') ->
      string_keys kvs = Some skvs ->
      exists m, interpret self data (MultiHash elements off) ctx = (Ok (VObject m), c')
                /\ StronglySorted key_lt m)
  /\ (forall pre k v post kvs skvs c1 o c2,
      data <> VNull ->
      elements = pre ++ (k, v) :: post ->
      mapM (eval_pair (interpret self data)) pre (set_offset off ctx) = (Ok kvs, c1) ->
      string_keys kvs = Some skvs ->
      interpret self data k c1 = (o, c2) ->
      (forall x, o <> Ok x) ->
      interpret self data (MultiHash elements off) ctx = (o, c2))
  /\ (forall pre k v post kvs skvs c1 key c2 o c3,
      data <> VNull ->
      elements = pre ++ (k, v) :: post ->
      mapM (eval_pair (interpret self data)) pre (set_offset off ctx) = (Ok kvs, c1) ->
      string_keys kvs = Some skvs ->
      interpret self data k c1 = (Ok key, c2) ->
      interpret self data v c2 = (o, c3) ->
      (forall x, o <> Ok x) ->
      interpret self data (MultiHash elements off) ctx = (o, c3)).
Proof.
  split; [intros ->; reflexivity|split; [|split; [|split]]].
  - intros pre k v post kvs skvs c1 key c2 value c3 Hdata Hel Hpre Hkeys Hk Hnot Hv.
    exact (multihash_invalid_key self data elements off ctx pre k v post kvs skvs
             c1 key c2 value c3 Hdata Hel Hpre Hkeys Hk Hnot Hv).
  - intros kvs skvs c' Hdata Hpairs Hkeys.
    eexists; split; [exact (multihash_all_strings self data elements off ctx kvs skvs c'
                               Hdata Hpairs Hkeys)|].
    apply Sorted_StronglySorted; [exact key_lt_trans|].
    apply fold_insert_sorted; constructor.
  - intros pre k v post kvs skvs c1 o c2 Hdata Hel Hpre Hkeys Hk Hfail.
    exact (multihash_key_fails self data elements off ctx pre k v post kvs skvs c1 o c2
             Hdata Hel Hpre Hkeys Hk Hfail).
  - intros pre k v post kvs skvs c1 key c2 o c3 Hdata Hel Hpre Hkeys Hk Hv Hfail.
    exact (multihash_value_fails self data elements off ctx pre k v post kvs skvs c1 key c2
             o c3 Hdata Hel Hpre Hkeys Hk Hv Hfail).
Qed.

(** C5.  [Function(name, args)]: the arguments are evaluated first, left to
    right, failing on the first error; then the offset is reset to the
    node's own; an unregistered name gives [UnknownFunction] with that
    offset and the name, a registered one is called on the arguments and
    its outcome returned as it is. *)
Theorem function_rule (self : TreeInterpreter) (data : RcVar) (name : string)
  (args : list Ast) (off : nat) (ctx : Context) :
  interpret self data (Function name args off) ctx
  = (let* fn_args := mapM (interpret self data) args in
     fun c =>
       match functions_get (functions self) name with
       | Some f => f fn_args (set_offset off c)
       | None => (Error (UnknownFunction off (expression c) name), set_offset off c)
       end) (set_offset off ctx).
Proof.
  cbn [interpret]; unfold bind, set_ctx_offset.
  rewrite push_each_mapM; unfold bind, ret.
  destruct (mapM (interpret self data) args (set_offset off ctx)) as [[vs|e|] c1];
    try reflexivity.
  destruct (functions_get (functions self) name); reflexivity.
Qed.

(** C6.  [Or] returns a truthy left result without running [rhs] (any
    [rhs] gives the same outcome) and otherwise runs [rhs] after it; [And]
    does the same for a falsy left result. *)
Theorem or_and_short_circuit (self : TreeInterpreter) (data : RcVar) (lhs : Ast)
  (off : nat) (ctx : Context) (v : RcVar) (c1 : Context)
  (Hl : interpret self data lhs (set_offset off ctx) = (Ok v, c1)) :
  (is_truthy v = true -> forall rhs,
     interpret self data (Or lhs rhs off) ctx = (Ok v, c1))
  /\ (is_truthy v = false -> forall rhs,
     interpret self data (Or lhs rhs off) ctx = interpret self data rhs c1)
  /\ (is_truthy v = false -> forall rhs,
     interpret self data (And lhs rhs off) ctx = (Ok v, c1))
  /\ (is_truthy v = true -> forall rhs,
     interpret self data (And lhs rhs off) ctx = interpret self data rhs c1).
Proof.
  repeat split; intros Ht rhs; cbn [interpret]; unfold bind, set_ctx_offset;
    rewrite Hl, Ht; reflexivity.
Qed.

(** C7.  Truthiness: the falsy values are exactly null, false, the empty
    string, the empty array and the empty object; every number is truthy. *)
Theorem truthiness (v : RcVar) :
  (is_truthy v = false <->
   v = VNull \/ v = VBool false \/ v = VString EmptyString \/ v = VArray [] \/ v = VObject [])
  /\ (forall n, is_truthy (VNumber n) = true).
Proof.
  split; [|reflexivity].
  split.
  - destruct v as [| s | b | n | a | m | ast]; cbn; intros H.
    + left; reflexivity.
    + destruct s; [right; right; left; reflexivity|discriminate].
    + destruct b; [discriminate|right; left; reflexivity].
    + discriminate.
    + destruct a; [right; right; right; left; reflexivity|discriminate].
    + destruct m; [right; right; right; right; reflexivity|discriminate].
    + discriminate.
  - intros [->|[->|[->|[->| ->]]]]; reflexivity.
Qed.

(** C8.  [Flatten(node)]: a non-array gives null; otherwise each array
    element contributes its members and every other element itself, one
    level only: [[[1,2],[3,[4,5]]]] flattens to [[1,2,3,[4,5]]]. *)
Theorem flatten_rule (self : TreeInterpreter) (data : RcVar) (node : Ast) (off : nat)
  (ctx : Context) :
  interpret self data (Flatten node off) ctx
  = (let* n := interpret self data node in
     match as_array n with
     | None => ret VNull
     | Some a => ret (VArray (flat_map flatten_one a))
     end) (set_offset off ctx)
  /\ fst (interpret self
            (VArray [VArray [VNumber 1; VNumber 2];
                     VArray [VNumber 3; VArray [VNumber 4; VNumber 5]]])
            (Flatten (Identity 1) 0) ctx)
     = Ok (VArray [VNumber 1; VNumber 2; VNumber 3; VArray [VNumber 4; VNumber 5]]).
Proof.
  split; [|reflexivity].
  cbn [interpret]; unfold bind, set_ctx_offset.
  destruct (interpret self data node (set_offset off ctx)) as [[n|e|] c1]; try reflexivity.
  destruct (as_array n) as [a|]; [|reflexivity].
  rewrite flatten_loop_flat_map; reflexivity.
Qed.

(** C9 (code_bug).  A [Slice] with a non-zero step can panic on an array:
    on [[0, 1, 2]] with start 2 and step [2147483646], [i += step] passes
    [i32::MAX].  (For a non-array input a non-zero step gives null, and an
    error outcome only comes from a zero step: [slice_not_array],
    [slice_error_zero_step].) *)
Theorem slice_nonzero_step_panics (self : TreeInterpreter) (ctx : Context) :
  fst (interpret self (VArray [VNumber 0; VNumber 1; VNumber 2])
         (Slice (Some 2) None 2147483646 0) ctx) = Panic.
Proof. vm_compute; reflexivity. Qed.

(** C10.  When every key of a [MultiHash] is a string, a key written twice
    keeps the value of the later pair: the object has one entry per distinct
    key, and the value of each key is the one of its last pair. *)
Theorem multihash_last_write_wins (self : TreeInterpreter) (data : RcVar)
  (elements : list (Ast * Ast)) (off : nat) (ctx : Context)
  (kvs : list (RcVar * RcVar)) (skvs : list (string * RcVar)) (c' : Context)
  (Hdata : data <> VNull)
  (Hpairs : mapM (eval_pair (interpret self data)) elements (set_offset off ctx) = (Ok kvs, c'))
  (Hkeys : string_keys kvs = Some skvs) :
  exists m,
    interpret self data (MultiHash elements off) ctx = (Ok (VObject m), c')
    /\ NoDup (map fst m)
    /\ (forall k, In k (map fst m) <-> In k (map fst skvs))
    /\ (forall k, map_get m k = last_write k skvs).
Proof.
  exists (fold_left (fun m kv => btree_insert (fst kv) (snd kv) m) skvs []).
  assert (Hget : forall k,
            map_get (fold_left (fun m kv => btree_insert (fst kv) (snd kv) m) skvs []) k
            = last_write k skvs).
  { intros k; rewrite map_get_fold_insert; destruct (last_write k skvs); reflexivity. }
  split; [exact (multihash_all_strings self data elements off ctx kvs skvs c'
                   Hdata Hpairs Hkeys)|].
  split; [apply sorted_keys_nodup, fold_insert_sorted; constructor|].
  split; [|exact Hget].
  intros k; rewrite in_keys_map_get, Hget, last_write_in; reflexivity.
Qed.

End Interpreter.

(** C4: a non-string key whose value expression fails gives the value's
    error, not [InvalidKey]. *)
Lemma multihash_value_error_first :
  fst (interpret no_compare empty_interpreter (VNumber 1) (Literal (VNumber 3) 1) ctx0)
    = Ok (VNumber 3)
  /\ fst (interpret no_compare empty_interpreter (VNumber 1)
            (MultiHash [(Literal (VNumber 3) 1, Slice None None 0 2)] 0) ctx0)
     = Error (InvalidSlice 2%nat "")
  /\ forall co ex actual,
       fst (interpret no_compare empty_interpreter (VNumber 1)
              (MultiHash [(Literal (VNumber 3) 1, Slice None None 0 2)] 0) ctx0)
       <> Error (InvalidKey co ex actual).
Proof.
  split; [reflexivity|split; [reflexivity|]].
  intros co ex actual; vm_compute; discriminate.
Qed.

(** ** Witnesses *)

Lemma multihash_rule_witness :
  interpret no_compare empty_interpreter (VNumber 1)
    (MultiHash [(Literal (VNumber 3) 1, Literal (VNumber 7) 2)] 0) ctx0
  = (Error (InvalidKey 2%nat "" "number"), mkContext "" 2%nat)
  /\ interpret no_compare empty_interpreter (VNumber 1)
       (MultiHash [(Literal (VNumber 3) 1, Slice None None 0 2)] 0) ctx0
     = (Error (InvalidSlice 2%nat ""), mkContext "" 2%nat).
Proof.
  split.
  2: { refine (proj2 (proj2 (proj2 (proj2 (multihash_rule no_compare empty_interpreter (VNumber 1)
            [(Literal (VNumber 3) 1, Slice None None 0 2)] 0 ctx0))))
            [] (Literal (VNumber 3) 1) (Slice None None 0 2) [] [] []
            (mkContext "" 0%nat) (VNumber 3) (mkContext "" 1%nat)
            (Error (InvalidSlice 2%nat "")) (mkContext "" 2%nat) _ _ _ _ _ _ _).
       - discriminate.
       - reflexivity.
       - reflexivity.
       - reflexivity.
       - reflexivity.
       - reflexivity.
       - intros x; discriminate. }
  refine (proj1 (proj2 (multihash_rule no_compare empty_interpreter (VNumber 1)
            [(Literal (VNumber 3) 1, Literal (VNumber 7) 2)] 0 ctx0))
            [] (Literal (VNumber 3) 1) (Literal (VNumber 7) 2) [] [] []
            (mkContext "" 0%nat) (VNumber 3) (mkContext "" 1%nat) (VNumber 7)
            (mkContext "" 2%nat) _ _ _ _ _ _ _).
  - discriminate.
  - reflexivity.
  - reflexivity.
  - reflexivity.
  - reflexivity.
  - intros s; discriminate.
  - reflexivity.
Defined.

Lemma or_and_short_circuit_witness :
  interpret no_compare empty_interpreter VNull (Literal (VBool true) 1) (set_offset 0 ctx0)
    = (Ok (VBool true), mkContext "" 1%nat)
  /\ interpret no_compare empty_interpreter VNull
       (Or (Literal (VBool true) 1) (Slice None None 0 5) 0) ctx0
     = (Ok (VBool true), mkContext "" 1%nat).
Proof.
  split; [reflexivity|].
  apply (proj1 (or_and_short_circuit no_compare empty_interpreter VNull
                  (Literal (VBool true) 1) 0 ctx0 (VBool true) (mkContext "" 1%nat)
                  eq_refl)).
  reflexivity.
Defined.

Lemma multihash_last_write_wins_witness :
  exists m,
    interpret no_compare empty_interpreter (VNumber 0)
      (MultiHash repeated_key_pairs 0) ctx0 = (Ok (VObject m), mkContext "" 4%nat)
    /\ NoDup (map fst m)
    /\ (forall k, In k (map fst m) <-> In k (map fst [("a"%string, VNumber 1); ("a"%string, VNumber 2)]))
    /\ (forall k, map_get m k = last_write k [("a"%string, VNumber 1); ("a"%string, VNumber 2)]).
Proof.
  apply (multihash_last_write_wins no_compare empty_interpreter (VNumber 0)
           repeated_key_pairs 0 ctx0
           [(VString "a", VNumber 1); (VString "a", VNumber 2)]
           [("a"%string, VNumber 1); ("a"%string, VNumber 2)] (mkContext "" 4%nat)).
  - discriminate.
  - vm_compute; reflexivity.
  - reflexivity.
Defined.

(** * Further properties of the interpreter *)

Section Extras.

Variable compare : RcVar -> Comparator -> RcVar -> option bool.

(** ** Helper lemmas *)

Lemma interpret_set_offset (self : TreeInterpreter) (data : RcVar) (node : Ast) o ctx :
  interpret compare self data node (set_offset o ctx) = interpret compare self data node ctx.
Proof. destruct node; reflexivity. Qed.

Lemma interpret_subexpr (self : TreeInterpreter) (data : RcVar) (lhs rhs : Ast) o ctx :
  interpret compare self data (Subexpr lhs rhs o) ctx
  = bind (interpret compare self data lhs) (fun v => interpret compare self v rhs) ctx.
Proof.
  change (interpret compare self data (Subexpr lhs rhs o) ctx)
    with (bind (interpret compare self data lhs) (fun v => interpret compare self v rhs)
            (set_offset o ctx)).
  unfold bind; rewrite interpret_set_offset; reflexivity.
Qed.

Lemma mapM_length {A B} (f : A -> M B) (xs : list A) :
  forall ctx ys c, mapM f xs ctx = (Ok ys, c) -> List.length ys = List.length xs.
Proof.
  induction xs as [|x rest IH]; intros ctx ys c H; cbn in H.
  - injection H as <- _; reflexivity.
  - unfold bind, ret in H.
    destruct (f x ctx) as [[y|e|] c1]; try discriminate.
    destruct (mapM f rest c1) as [[ys'|e|] c2] eqn:Hr; try discriminate.
    injection H as <- _; cbn; f_equal; exact (IH _ _ _ Hr).
Qed.

(** ** Composition *)

(** [Subexpr] (the pipe [a.b] / [a | b]) is associative, whatever offsets
    the two nestings carry: same outcome, same final context. *)
Theorem subexpr_assoc (self : TreeInterpreter) (data : RcVar) (a b c : Ast)
  (o1 o2 o1' o2' : nat) (ctx : Context) :
  interpret compare self data (Subexpr (Subexpr a b o1) c o2) ctx
  = interpret compare self data (Subexpr a (Subexpr b c o1') o2') ctx.
Proof.
  rewrite !interpret_subexpr; unfold bind.
  rewrite interpret_subexpr; unfold bind.
  destruct (interpret compare self data a ctx) as [[v|e|] c1]; try reflexivity.
  rewrite interpret_subexpr; unfold bind.
  destruct (interpret compare self v b c1) as [[w|e|] c2]; reflexivity.
Qed.

(** [Identity] ([@]) is a unit of [Subexpr] on both sides (on the right the
    final offset is the one of [@]), and a [Literal] on the left feeds its
    value to the right, whatever the input. *)
Theorem subexpr_units (self : TreeInterpreter) (data : RcVar) (node : Ast) (value : RcVar)
  (o1 o2 : nat) (ctx : Context) :
  interpret compare self data (Subexpr (Identity o1) node o2) ctx
    = interpret compare self data node ctx
  /\ interpret compare self data (Subexpr node (Identity o1) o2) ctx
    = (match interpret compare self data node ctx with
       | (Ok v, c) => (Ok v, set_offset o1 c)
       | other => other
       end)
  /\ interpret compare self data (Subexpr (Literal value o1) node o2) ctx
    = interpret compare self value node ctx.
Proof.
  split; [|split]; rewrite interpret_subexpr; unfold bind.
  - cbn [interpret]; unfold bind, set_ctx_offset, ret; apply interpret_set_offset.
  - destruct (interpret compare self data node ctx) as [[v|e|] c]; reflexivity.
  - cbn [interpret]; unfold bind, set_ctx_offset, ret; apply interpret_set_offset.
Qed.

(** ** The arms not covered by the claims *)

(** [Not(Not(n))] gives the truthiness of [n] as a boolean. *)
Theorem not_not (self : TreeInterpreter) (data : RcVar) (node : Ast) (o1 o2 : nat)
  (ctx : Context) :
  interpret compare self data (Not (Not node o1) o2) ctx
  = match interpret compare self data node ctx with
    | (Ok v, c) => (Ok (VBool (is_truthy v)), c)
    | (Error e, c) => (Error e, c)
    | (Panic, c) => (Panic, c)
    end.
Proof.
  cbn [interpret]; unfold bind, set_ctx_offset, ret.
  rewrite !interpret_set_offset.
  destruct (interpret compare self data node ctx) as [[v|e|] c]; try reflexivity.
  cbn; rewrite negb_involutive; reflexivity.
Qed.

(** [MultiList]: null input gives null (no element is evaluated); otherwise
    a successful result is an array with one value per element, the
    elements' results in order. *)
Theorem multilist_rule (self : TreeInterpreter) (data : RcVar) (elements : list Ast)
  (off : nat) (ctx : Context) :
  (data = VNull ->
   interpret compare self data (MultiList elements off) ctx = (Ok VNull, set_offset off ctx))
  /\ (forall v c,
      data <> VNull ->
      interpret compare self data (MultiList elements off) ctx = (Ok v, c) ->
      exists vs, v = VArray vs
                 /\ List.length vs = List.length elements
                 /\ mapM (interpret compare self data) elements (set_offset off ctx)
                    = (Ok vs, c)).
Proof.
  split; [intros ->; reflexivity|].
  intros v c Hdata H.
  assert (Hn : is_null data = false) by (destruct data; [exfalso; exact (Hdata eq_refl)|..];
                                         reflexivity).
  cbn [interpret] in H; unfold bind, set_ctx_offset in H; rewrite Hn in H.
  rewrite push_each_mapM in H; unfold bind, ret in H.
  destruct (mapM (interpret compare self data) elements (set_offset off ctx))
    as [[vs|e|] c1] eqn:Hm; try discriminate.
  injection H as <- <-; exists vs; split; [reflexivity|split; [|reflexivity]].
  exact (mapM_length _ _ _ _ _ Hm).
Qed.

(** A successful [Projection] that yields an array never holds null. *)
Theorem projection_no_null (self : TreeInterpreter) (data : RcVar) (lhs rhs : Ast)
  (off : nat) (ctx : Context) (vs : list RcVar) (c : Context)
  (H : interpret compare self data (Projection lhs rhs off) ctx = (Ok (VArray vs), c)) :
  Forall (fun v => v <> VNull) vs.
Proof.
  cbn [interpret] in H; unfold bind, set_ctx_offset, ret in H.
  destruct (interpret compare self data lhs (set_offset off ctx)) as [[l|e|] c1];
    try discriminate.
  destruct (as_array l) as [left_|]; [|discriminate].
  rewrite projection_loop_mapM in H; unfold bind, ret in H.
  destruct (mapM _ left_ c1) as [[rs|e|] c2]; try discriminate.
  injection H as <- _; cbn.
  apply Forall_forall; intros x Hx; apply filter_In in Hx as [_ Hx].
  intros ->; discriminate.
Qed.

(** [Flatten] leaves an array none of whose elements is an array as it is. *)
Theorem flatten_flat_array (self : TreeInterpreter) (data : RcVar) (node : Ast)
  (off : nat) (ctx : Context) (a : list RcVar) (c : Context)
  (Hn : interpret compare self data node (set_offset off ctx) = (Ok (VArray a), c))
  (Hflat : Forall (fun x => as_array x = None) a) :
  interpret compare self data (Flatten node off) ctx = (Ok (VArray a), c).
Proof.
  assert (Hid : flat_map flatten_one a = a).
  { clear Hn; induction Hflat as [|x rest Hx _ IH]; [reflexivity|].
    cbn [flat_map]; rewrite IH; destruct x; cbn in Hx |- *; first [reflexivity | discriminate Hx]. }
  cbn [interpret]; unfold bind, set_ctx_offset, ret; rewrite Hn; cbn.
  rewrite flatten_loop_flat_map, Hid; reflexivity.
Qed.

(** [ObjectValues] over a [MultiHash] whose keys are all strings: one value
    per distinct key, the value of its last pair, in strictly ascending key
    order. *)
Theorem object_values_of_multihash (self : TreeInterpreter) (data : RcVar)
  (elements : list (Ast * Ast)) (o1 o2 : nat) (ctx : Context)
  (kvs : list (RcVar * RcVar)) (skvs : list (string * RcVar)) (c' : Context)
  (Hdata : data <> VNull)
  (Hpairs : mapM (eval_pair (interpret compare self data)) elements (set_offset o1 ctx)
            = (Ok kvs, c'))
  (Hkeys : string_keys kvs = Some skvs) :
  exists m,
    interpret compare self data (ObjectValues (MultiHash elements o1) o2) ctx
      = (Ok (VArray (map snd m)), c')
    /\ StronglySorted key_lt m
    /\ (forall k, In k (map fst m) <-> In k (map fst skvs))
    /\ (forall k, map_get m k = last_write k skvs).
Proof.
  exists (fold_left (fun m kv => btree_insert (fst kv) (snd kv) m) skvs []).
  assert (Hget : forall k,
            map_get (fold_left (fun m kv => btree_insert (fst kv) (snd kv) m) skvs []) k
            = last_write k skvs).
  { intros k; rewrite map_get_fold_insert; destruct (last_write k skvs); reflexivity. }
  split.
  - change (interpret compare self data (ObjectValues (MultiHash elements o1) o2) ctx)
      with (bind (interpret compare self data (MultiHash elements o1))
              (fun subject => match subject with
                              | VObject v => ret (VArray (map snd v))
                              | _ => ret VNull
                              end) (set_offset o2 ctx)).
    unfold bind; rewrite interpret_set_offset.
    rewrite (multihash_all_strings compare self data elements o1 ctx kvs skvs c'
               Hdata Hpairs Hkeys).
    reflexivity.
  - split; [apply Sorted_StronglySorted; [exact key_lt_trans|];
            apply fold_insert_sorted; constructor|].
    split; [|exact Hget].
    intros k; rewrite in_keys_map_get, Hget, last_write_in; reflexivity.
Qed.

(** ** The expression text is never changed *)

(** Induction on [Ast] through the lists of [Function], [MultiList] and
    [MultiHash]. *)
Lemma ast_nested_ind (P : Ast -> Prop)
  (Hcmp : forall cmp l r o, P l -> P r -> P (Comparison cmp l r o))
  (Hcond : forall p t o, P p -> P t -> P (Condition p t o))
  (Hid : forall o, P (Identity o))
  (Hexp : forall a o, P (Expref a o))
  (Hflat : forall n o, P n -> P (Flatten n o))
  (Hfun : forall name args o, Forall P args -> P (Function name args o))
  (Hfield : forall name o, P (Field name o))
  (Hindex : forall i o, P (Index i o))
  (Hlit : forall v o, P (Literal v o))
  (Hml : forall els o, Forall P els -> P (MultiList els o))
  (Hmh : forall els o, Forall (fun kv => P (fst kv) /\ P (snd kv)) els -> P (MultiHash els o))
  (Hnot : forall n o, P n -> P (Not n o))
  (Hproj : forall l r o, P l -> P r -> P (Projection l r o))
  (Hov : forall n o, P n -> P (ObjectValues n o))
  (Hand : forall l r o, P l -> P r -> P (And l r o))
  (Hor : forall l r o, P l -> P r -> P (Or l r o))
  (Hslice : forall a b s o, P (Slice a b s o))
  (Hsub : forall l r o, P l -> P r -> P (Subexpr l r o)) :
  forall a, P a.
Proof.
  fix IH 1; intros a; destruct a.
  - apply Hcmp; apply IH.
  - apply Hcond; apply IH.
  - apply Hid.
  - apply Hexp.
  - apply Hflat; apply IH.
  - apply Hfun.
    exact ((fix go (l : list Ast) : Forall P l :=
              match l with
              | [] => Forall_nil P
              | x :: xs => Forall_cons x (IH x) (go xs)
              end) args).
  - apply Hfield.
  - apply Hindex.
  - apply Hlit.
  - apply Hml.
    exact ((fix go (l : list Ast) : Forall P l :=
              match l with
              | [] => Forall_nil P
              | x :: xs => Forall_cons x (IH x) (go xs)
              end) elements).
  - apply Hmh.
    exact ((fix go (l : list (Ast * Ast)) : Forall (fun kv => P (fst kv) /\ P (snd kv)) l :=
              match l with
              | [] => Forall_nil _
              | (k, v) :: xs => Forall_cons (k, v) (conj (IH k) (IH v)) (go xs)
              end) elements).
  - apply Hnot; apply IH.
  - apply Hproj; apply IH.
  - apply Hov; apply IH.
  - apply Hand; apply IH.
  - apply Hor; apply IH.
  - apply Hslice.
  - apply Hsub; apply IH.
Qed.

Lemma preserves_ret {A} (a : A) : preserves (ret a).
Proof. intros ctx r c H; injection H as <- <-; split; [reflexivity|discriminate]. Qed.

Lemma preserves_panic {A} : preserves (@panic A).
Proof. intros ctx r c H; injection H as <- <-; split; [reflexivity|discriminate]. Qed.

Lemma preserves_set_ctx_offset (o : nat) : preserves (set_ctx_offset o).
Proof. intros ctx r c H; injection H as <- <-; split; [reflexivity|discriminate]. Qed.

Lemma preserves_bind {A B} (m : M A) (k : A -> M B) :
  preserves m -> (forall a, preserves (k a)) -> preserves (bind m k).
Proof.
  intros Hm Hk ctx r c H; unfold bind in H.
  destruct (m ctx) as [[a|e|] c1] eqn:E.
  - destruct (Hm _ _ _ E) as [He _].
    destruct (Hk a _ _ _ H) as [He' Herr].
    split; [congruence|intros e' Hr; rewrite (Herr e' Hr); exact He].
  - injection H as <- <-; destruct (Hm _ _ _ E) as [He Herr].
    split; [exact He|intros e' He'; injection He' as <-; exact (Herr e eq_refl)].
  - injection H as <- <-; destruct (Hm _ _ _ E) as [He _].
    split; [exact He|discriminate].
Qed.

Lemma preserves_get_raise {A} (mk : Context -> RuntimeError) :
  (forall ctx, error_expression (mk ctx) = expression ctx) ->
  preserves (bind get_ctx (fun ctx => @raise A (mk ctx))).
Proof.
  intros Hmk ctx r c H; cbn in H; injection H as <- <-.
  split; [reflexivity|intros e He; injection He as <-; apply Hmk].
Qed.

Ltac preserves_step :=
  match goal with
  | |- preserves (bind get_ctx _) => apply preserves_get_raise; intros; reflexivity
  | |- preserves (bind _ _) => apply preserves_bind; [|intros]
  | |- preserves (ret _) => apply preserves_ret
  | |- preserves panic => apply preserves_panic
  | |- preserves (set_ctx_offset _) => apply preserves_set_ctx_offset
  | |- preserves (if ?b then _ else _) => destruct b
  | |- preserves (match ?x with _ => _ end) => destruct x eqn:?
  end.

Lemma preserves_push_each (f : Ast -> M RcVar) (nodes : list Ast) :
  Forall (fun n => preserves (f n)) nodes ->
  forall collected, preserves (push_each f nodes collected).
Proof.
  induction 1 as [|n rest Hn _ IH]; intros collected; cbn.
  - apply preserves_ret.
  - apply preserves_bind; [exact Hn|intros; apply IH].
Qed.

Lemma preserves_projection_loop (f : RcVar -> M RcVar) :
  (forall v, preserves (f v)) ->
  forall left_ collected, preserves (projection_loop f left_ collected).
Proof.
  intros Hf left_; induction left_ as [|x rest IH]; intros collected; cbn.
  - apply preserves_ret.
  - apply preserves_bind; [apply Hf|intros v].
    destruct (negb (is_null v)); apply IH.
Qed.

Lemma preserves_multihash_loop (f : Ast -> M RcVar) (elements : list (Ast * Ast)) :
  Forall (fun kv => preserves (f (fst kv)) /\ preserves (f (snd kv))) elements ->
  forall collected, preserves (multihash_loop f elements collected).
Proof.
  induction 1 as [|[k v] rest [Hk Hv] _ IH]; intros collected; cbn.
  - apply preserves_ret.
  - apply preserves_bind; [exact Hk|intros key].
    apply preserves_bind; [exact Hv|intros value].
    destruct key; try (apply preserves_get_raise; intros; reflexivity).
    apply IH.
Qed.

(** When every registered function keeps the expression text of the
    context and reports its errors with it, evaluating any node leaves the
    expression text as it found it, and every error the evaluation ends in
    carries that text. *)
Theorem interpret_keeps_expression (self : TreeInterpreter)
  (Hfuns : forall name f, functions_get (functions self) name = Some f ->
           forall args, preserves (f args))
  (node : Ast) (data : RcVar) (ctx : Context) (r : Outcome RcVar) (c : Context) :
  interpret compare self data node ctx = (r, c) ->
  expression c = expression ctx
  /\ (forall e, r = Error e -> error_expression e = expression ctx).
Proof.
  revert data ctx r c.
  change (forall data, preserves (interpret compare self data node)).
  induction node using ast_nested_ind; intros data; cbn [interpret];
    repeat preserves_step; auto.
  - apply preserves_push_each.
    rewrite Forall_forall in *; intros n Hn; auto.
  - eapply Hfuns; eassumption.
  - apply preserves_push_each.
    rewrite Forall_forall in *; intros n Hn; auto.
  - apply preserves_multihash_loop.
    rewrite Forall_forall in *; intros kv Hkv; destruct (H kv Hkv); auto.
  - apply preserves_projection_loop; auto.
Qed.

(** ** Slices *)

Lemma slice_loop_incl (array : list RcVar) (b step : Z) (fuel : nat) :
  forall i r, slice_loop array b step fuel i = Some r -> incl r array.
Proof.
  induction fuel as [|fuel IH]; intros i r H; cbn in H.
  - injection H as <-; intros x [].
  - destruct (if step >? 0 then i <? b else b <? i).
    2: { injection H as <-; intros x []. }
    unfold index_i32 in H; destruct (0 <=? i); [|discriminate].
    destruct (nth_error array (Z.to_nat i)) as [x|] eqn:Hx; [|discriminate].
    destruct (checked_i32 (i + step)) as [i'|]; [|discriminate].
    destruct (slice_loop array b step fuel i') as [r'|] eqn:Hr; [|discriminate].
    injection H as <-; intros y [<-|Hy].
    + exact (nth_error_In _ _ Hx).
    + exact (IH _ _ Hr y Hy).
Qed.

(** One round of the loop: the index read is inside the array and the next
    index moves by [step]. *)
Lemma slice_loop_round (array : list RcVar) (b step : Z) (fuel : nat) (i : Z) (r : list RcVar) :
  slice_loop array b step (S fuel) i = Some r -> r <> [] ->
  0 <= i < Z.of_nat (List.length array)
  /\ exists x r', r = x :: r' /\ slice_loop array b step fuel (i + step) = Some r'.
Proof.
  intros H Hne; cbn in H.
  destruct (if step >? 0 then i <? b else b <? i).
  2: { injection H as <-; contradiction. }
  unfold index_i32 in H; destruct (Z.leb_spec 0 i); [|discriminate].
  destruct (nth_error array (Z.to_nat i)) as [x|] eqn:Hx; [|discriminate].
  unfold checked_i32 in H; destruct (_ && _); [|discriminate].
  destruct (slice_loop array b step fuel (i + step)) as [r'|]; [|discriminate].
  injection H as <-.
  assert (Z.to_nat i < List.length array)%nat by (apply nth_error_Some; congruence).
  split; [lia|exists x, r'; split; reflexivity].
Qed.

Lemma slice_loop_length_pos (array : list RcVar) (b step : Z) (Hs : step > 0) (fuel : nat) :
  forall i r, slice_loop array b step fuel i = Some r ->
  r = [] \/ (0 <= i /\ Z.of_nat (List.length r) <= Z.of_nat (List.length array) - i).
Proof.
  induction fuel as [|fuel IH]; intros i r H.
  - cbn in H; injection H as <-; left; reflexivity.
  - destruct r as [|y r0]; [left; reflexivity|right].
    destruct (slice_loop_round _ _ _ _ _ _ H ltac:(discriminate)) as [Hi (x & r' & Heq & Hr)].
    injection Heq as <- <-.
    split; [lia|].
    destruct (IH _ _ Hr) as [->|[_ Hlen]]; cbn [List.length]; lia.
Qed.

Lemma slice_loop_length_neg (array : list RcVar) (b step : Z) (Hs : step < 0) (fuel : nat) :
  forall i r, slice_loop array b step fuel i = Some r ->
  r = [] \/ (i < Z.of_nat (List.length array) /\ Z.of_nat (List.length r) <= i + 1).
Proof.
  induction fuel as [|fuel IH]; intros i r H.
  - cbn in H; injection H as <-; left; reflexivity.
  - destruct r as [|y r0]; [left; reflexivity|right].
    destruct (slice_loop_round _ _ _ _ _ _ H ltac:(discriminate)) as [Hi (x & r' & Heq & Hr)].
    injection Heq as <- <-.
    split; [lia|].
    destruct (IH _ _ Hr) as [->|[_ Hlen]]; cbn [List.length]; lia.
Qed.

Lemma slice_bounded (array : list RcVar) (start stop : option Z) (step : Z) (r : list RcVar) :
  step <> 0 -> slice array start stop step = Some r ->
  (List.length r <= List.length array)%nat /\ incl r array.
Proof.
  intros Hs H; unfold slice in H; cbv zeta in H.
  destruct (usize_as_i32 (List.length array) =? 0).
  { injection H as <-; split; [cbn; lia|intros x []]. }
  destruct (match start with Some _ => _ | None => _ end) as [a|]; [|discriminate].
  destruct (match stop with Some _ => _ | None => _ end) as [b|]; [|discriminate].
  split; [|exact (slice_loop_incl _ _ _ _ _ _ H)].
  destruct (Z.ltb_spec 0 step) as [Hp|Hn].
  - destruct (slice_loop_length_pos array b step ltac:(lia) _ _ _ H) as [->|[Ha Hl]]; cbn; lia.
  - destruct (slice_loop_length_neg array b step ltac:(lia) _ _ _ H) as [->|[Ha Hl]]; cbn; lia.
Qed.

Lemma map_nth_seq_id (array : list RcVar) :
  map (fun k => nth k array VNull) (seq 0 (List.length array)) = array.
Proof.
  apply nth_ext with (d := VNull) (d' := VNull); [rewrite length_map, length_seq; reflexivity|].
  intros n Hn; rewrite length_map, length_seq in Hn.
  rewrite nth_indep with (d' := nth 0 array VNull) by (rewrite length_map, length_seq; exact Hn).
  rewrite (map_nth (fun k => nth k array VNull)), seq_nth by exact Hn; reflexivity.
Qed.

Lemma map_nth_seq_rev (array : list RcVar) :
  map (fun k => nth (List.length array - 1 - k) array VNull) (seq 0 (List.length array))
  = rev array.
Proof.
  apply nth_ext with (d := VNull) (d' := VNull);
    [rewrite length_map, length_seq, length_rev; reflexivity|].
  intros n Hn; rewrite length_map, length_seq in Hn.
  rewrite nth_indep with (d' := nth (List.length array - 1 - 0) array VNull)
    by (rewrite length_map, length_seq; exact Hn).
  rewrite (map_nth (fun k => nth (List.length array - 1 - k) array VNull)), seq_nth by exact Hn.
  rewrite rev_nth by exact Hn; f_equal; lia.
Qed.

(** [adjust_slice_endpoint] on a non-empty array shorter than [2^31] and an
    [i32] endpoint never overflows, and clamps the endpoint to [[0, len]]
    for a positive step and to [[-1, len - 1]] for a negative one. *)
Theorem adjust_slice_endpoint_range (len e step : Z)
  (Hlen : 0 < len <= i32_max) (He : in_i32 e) :
  (step > 0 -> exists x, adjust_slice_endpoint len e step = Some x /\ 0 <= x <= len)
  /\ (step < 0 -> exists x, adjust_slice_endpoint len e step = Some x /\ -1 <= x <= len - 1).
Proof.
  rewrite (adjust_endpoint_agrees len e step Hlen He).
  destruct (claim_endpoint_range len e step ltac:(lia)) as [Hp Hn].
  split; intros Hs; eexists; split; [reflexivity|auto|reflexivity|auto].
Qed.

(** A successful [Slice] of an array returns at most as many elements as
    the array has, all taken from it (for any endpoints and step). *)
Theorem slice_result_within_array (self : TreeInterpreter) (a : list RcVar)
  (start stop : option Z) (step : Z) (off : nat) (ctx : Context)
  (r : list RcVar) (c : Context)
  (H : interpret compare self (VArray a) (Slice start stop step off) ctx = (Ok (VArray r), c)) :
  (List.length r <= List.length a)%nat /\ incl r a.
Proof.
  cbn [interpret] in H; unfold bind, set_ctx_offset, ret, get_ctx, raise, panic in H.
  destruct (Z.eqb_spec step 0) as [_|Hs]; [discriminate|].
  cbn [as_array] in H.
  destruct (slice a start stop step) as [r'|] eqn:Hsl; [|discriminate].
  injection H as <- _; exact (slice_bounded _ _ _ _ _ Hs Hsl).
Qed.

(** [[:]] copies an array and [[::-1]] reverses it (arrays shorter than
    [2^31 - 1]). *)
Theorem slice_copy_and_reverse (self : TreeInterpreter) (a : list RcVar) (off : nat)
  (ctx : Context) (Hlen : Z.of_nat (List.length a) < i32_max) :
  interpret compare self (VArray a) (Slice None None 1 off) ctx
    = (Ok (VArray a), set_offset off ctx)
  /\ interpret compare self (VArray a) (Slice None None (-1) off) ctx
    = (Ok (VArray (rev a)), set_offset off ctx).
Proof.
  assert (Hin1 : in_i32 1) by (unfold in_i32, i32_min, i32_max; lia).
  assert (Hin2 : in_i32 (-1)) by (unfold in_i32, i32_min, i32_max; lia).
  split; cbn [interpret]; unfold bind, set_ctx_offset, ret; cbn [Z.eqb as_array].
  - rewrite slice_agrees_without_overflow;
      [| lia | discriminate | exact Hin1 | discriminate | discriminate | intros; lia].
    unfold claim_slice; cbv zeta.
    destruct (Z.eqb_spec (Z.of_nat (List.length a)) 0) as [H0|H0].
    + destruct a; [reflexivity|cbn in H0; lia].
    + cbn [Z.ltb Z.gtb Z.compare].
      replace ((Z.of_nat (List.length a) - 0 + 1 - 1) / 1) with (Z.of_nat (List.length a))
        by (rewrite Z.div_1_r; lia).
      destruct (Z.ltb_spec 0 (Z.of_nat (List.length a))); [|lia].
      rewrite Nat2Z.id.
      rewrite (map_ext (fun k => nth (Z.to_nat (0 + Z.of_nat k * 1)) a VNull)
                 (fun k => nth k a VNull)) by (intros k; f_equal; lia).
      rewrite map_nth_seq_id; reflexivity.
  - rewrite slice_agrees_without_overflow;
      [| lia | discriminate | exact Hin2 | discriminate | discriminate | intros; lia].
    unfold claim_slice; cbv zeta.
    destruct (Z.eqb_spec (Z.of_nat (List.length a)) 0) as [H0|H0].
    + destruct a; [reflexivity|cbn in H0; lia].
    + cbn [Z.ltb Z.gtb Z.compare].
      replace ((Z.of_nat (List.length a) - 1 - -1 - -1 - 1) / - -1)
        with (Z.of_nat (List.length a)) by (change (- -1) with 1; rewrite Z.div_1_r; lia).
      destruct (Z.ltb_spec (-1) (Z.of_nat (List.length a) - 1)); [|lia].
      rewrite Nat2Z.id.
      rewrite <- map_nth_seq_rev.
      do 3 f_equal; apply map_ext_in; intros k Hk; apply in_seq in Hk.
      f_equal; lia.
Qed.

End Extras.

(** * The function registry of [Runtime] *)

Section Registry.

Context {F : Type}.

Lemma map_get_filter (m : list (string * F)) (k k' : string) :
  map_get (filter (fun kv => negb (String.eqb (fst kv) k)) m) k'
  = if String.eqb k k' then None else map_get m k'.
Proof.
  induction m as [|[k0 v0] rest IH]; cbn.
  - destruct (String.eqb k k'); reflexivity.
  - destruct (String.eqb_spec k0 k) as [->|Hne]; cbn.
    + rewrite IH; destruct (String.eqb_spec k k'); reflexivity.
    + destruct (String.eqb_spec k0 k') as [->|Hne'].
      * destruct (String.eqb_spec k k'); [congruence|reflexivity].
      * exact IH.
Qed.

Lemma get_register (rt : Runtime F) (name k : string) (f : F) :
  get_function (register_function rt name f) k
  = if String.eqb name k then Some f else get_function rt k.
Proof.
  unfold get_function, register_function, hm_insert, hm_remove; cbn.
  rewrite map_get_filter; destruct (String.eqb name k); reflexivity.
Qed.

Lemma get_register_all (builtin : string -> F) (names : list string) :
  forall (rt : Runtime F) k,
  get_function (fold_left (fun rt name => register_function rt name (builtin name)) names rt) k
  = if in_dec string_dec k names then Some (builtin k) else get_function rt k.
Proof.
  induction names as [|n rest IH]; intros rt k; cbn [fold_left].
  - reflexivity.
  - rewrite IH, get_register.
    destruct (in_dec string_dec k (n :: rest)) as [Hin|Hnin];
      destruct (in_dec string_dec k rest) as [Hin'|Hnin']; try reflexivity.
    + destruct Hin as [->|Hin]; [|contradiction].
      rewrite String.eqb_refl; reflexivity.
    + exfalso; apply Hnin; right; exact Hin'.
    + destruct (String.eqb_spec n k) as [->|]; [|reflexivity].
      exfalso; apply Hnin; left; reflexivity.
Qed.

(** [register_function] then [get_function]: the name resolves to the
    function just registered (replacing an earlier one), every other name
    to what it resolved to before. *)
Theorem register_then_get (rt : Runtime F) (name k : string) (f : F) :
  get_function (register_function rt name f) k
  = if String.eqb name k then Some f else get_function rt k.
Proof. exact (get_register rt name k f). Qed.

(** [deregister_function] returns the function the name resolved to (or
    nothing), after which the name resolves to nothing and every other name
    to what it resolved to before. *)
Theorem deregister_then_get (rt : Runtime F) (name k : string) :
  fst (deregister_function rt name) = get_function rt name
  /\ get_function (snd (deregister_function rt name)) k
     = if String.eqb name k then None else get_function rt k.
Proof.
  unfold deregister_function, hm_remove, get_function; cbn.
  split; [reflexivity|apply map_get_filter].
Qed.

(** Registering a name that is not registered and then deregistering it
    gives back the function and a runtime that resolves every name as the
    original one did. *)
Theorem register_deregister_roundtrip (rt : Runtime F) (name : string) (f : F)
  (Hfresh : get_function rt name = None) :
  fst (deregister_function (register_function rt name f) name) = Some f
  /\ forall k, get_function (snd (deregister_function (register_function rt name f) name)) k
               = get_function rt k.
Proof.
  unfold deregister_function, hm_remove, get_function in *; cbn.
  rewrite String.eqb_refl; split; [reflexivity|intros k].
  cbn [negb]; rewrite !map_get_filter.
  destruct (String.eqb_spec name k) as [->|]; [symmetry; exact Hfresh|reflexivity].
Qed.

(** [register_builtin_functions] makes each of the 26 builtin names resolve
    to its builtin and leaves every other name as it was; on a new runtime
    exactly the builtin names resolve. *)
Theorem builtin_registry (builtin : string -> F) (rt : Runtime F) (k : string) :
  get_function (register_builtin_functions builtin rt) k
    = (if in_dec string_dec k builtin_names then Some (builtin k) else get_function rt k)
  /\ (get_function (register_builtin_functions builtin runtime_new) k <> None
      <-> In k builtin_names)
  /\ List.length builtin_names = 26%nat /\ NoDup builtin_names.
Proof.
  unfold register_builtin_functions.
  split; [apply get_register_all|split; [|split; [reflexivity|]]].
  - rewrite get_register_all.
    destruct (in_dec string_dec k builtin_names) as [Hin|Hnin].
    + split; [intros _; exact Hin|discriminate].
    + split; [intros H; exfalso; apply H; reflexivity|intros H; contradiction].
  - repeat (apply NoDup_cons;
              [cbn; intros H; repeat (destruct H as [H|H]; [discriminate H|]); exact H|]).
    apply NoDup_nil.
Qed.

End Registry.

(** ** Witnesses of the further properties *)

Lemma multilist_rule_witness :
  exists vs, VArray [VNumber 1; VNull] = VArray vs
    /\ List.length vs = List.length [Identity 1; Literal VNull 2]
    /\ mapM (interpret no_compare empty_interpreter (VNumber 1)) [Identity 1; Literal VNull 2]
         (set_offset 0 ctx0) = (Ok vs, mkContext "" 2%nat).
Proof.
  apply (proj2 (multilist_rule no_compare empty_interpreter (VNumber 1)
                  [Identity 1; Literal VNull 2] 0 ctx0)).
  - discriminate.
  - reflexivity.
Defined.

Lemma projection_no_null_witness : Forall (fun v => v <> VNull) [VNumber 1].
Proof.
  apply (projection_no_null no_compare empty_interpreter
           (VArray [VObject [("a"%string, VNumber 1)]; VNumber 3])
           (Identity 1) (Field "a" 2) 0 ctx0 [VNumber 1] (mkContext "" 2%nat)).
  reflexivity.
Defined.

Lemma flatten_flat_array_witness :
  interpret no_compare empty_interpreter (VArray [VNumber 1; VString "x"])
    (Flatten (Identity 1) 0) ctx0
  = (Ok (VArray [VNumber 1; VString "x"]), mkContext "" 1%nat).
Proof.
  apply (flatten_flat_array no_compare empty_interpreter (VArray [VNumber 1; VString "x"])
           (Identity 1) 0 ctx0 [VNumber 1; VString "x"] (mkContext "" 1%nat)).
  - reflexivity.
  - repeat constructor.
Defined.

Lemma interpret_keeps_expression_witness :
  expression (mkContext "foo()" 0%nat) = expression (mkContext "foo()" 0%nat)
  /\ (forall e, @Error RcVar (UnknownFunction 0%nat "foo()" "foo") = Error e ->
      error_expression e = expression (mkContext "foo()" 0%nat)).
Proof.
  refine (interpret_keeps_expression no_compare empty_interpreter _
            (Function "foo" [] 0) VNull (mkContext "foo()" 0%nat) _ _ _).
  - intros name f H; discriminate H.
  - reflexivity.
Defined.

Lemma adjust_slice_endpoint_range_witness :
  exists x, adjust_slice_endpoint 5 (-7) 1 = Some x /\ 0 <= x <= 5.
Proof.
  apply (proj1 (adjust_slice_endpoint_range 5 (-7) 1 ltac:(unfold i32_max; lia)
                  ltac:(unfold in_i32, i32_min, i32_max; lia))).
  reflexivity.
Defined.

Lemma slice_result_within_array_witness :
  (List.length [VNumber 3; VNumber 2; VNumber 1] <= List.length [VNumber 1; VNumber 2; VNumber 3])%nat
  /\ incl [VNumber 3; VNumber 2; VNumber 1] [VNumber 1; VNumber 2; VNumber 3].
Proof.
  apply (slice_result_within_array no_compare empty_interpreter
           [VNumber 1; VNumber 2; VNumber 3] (Some 2) None (-1) 0 ctx0
           [VNumber 3; VNumber 2; VNumber 1] (mkContext "" 0%nat)).
  vm_compute; reflexivity.
Defined.

Lemma slice_copy_and_reverse_witness :
  interpret no_compare empty_interpreter (VArray [VNumber 1; VNumber 2]) (Slice None None (-1) 0) ctx0
  = (Ok (VArray [VNumber 2; VNumber 1]), set_offset 0 ctx0).
Proof.
  exact (proj2 (slice_copy_and_reverse no_compare empty_interpreter [VNumber 1; VNumber 2] 0 ctx0
                  ltac:(reflexivity))).
Defined.

Lemma register_deregister_roundtrip_witness :
  fst (deregister_function (register_function (mkRuntime [("abs"%string, 1%nat)]) "foo" 7%nat) "foo")
    = Some 7%nat
  /\ forall k, get_function (snd (deregister_function
                 (register_function (mkRuntime [("abs"%string, 1%nat)]) "foo" 7%nat) "foo")) k
               = get_function (mkRuntime [("abs"%string, 1%nat)]) k.
Proof. apply register_deregister_roundtrip; reflexivity. Defined.

Lemma builtin_registry_witness :
  get_function (register_builtin_functions (fun s : string => s) runtime_new) "abs" <> None
  <-> In "abs"%string builtin_names.
Proof. exact (proj1 (proj2 (builtin_registry (fun s : string => s) runtime_new "abs"))). Defined.

Lemma object_values_of_multihash_witness :
  exists m,
    interpret no_compare empty_interpreter (VNumber 0)
      (ObjectValues (MultiHash repeated_key_pairs 0) 5) ctx0
      = (Ok (VArray (map snd m)), mkContext "" 4%nat)
    /\ StronglySorted key_lt m
    /\ (forall k, In k (map fst m) <-> In k (map fst [("a"%string, VNumber 1); ("a"%string, VNumber 2)]))
    /\ (forall k, map_get m k = last_write k [("a"%string, VNumber 1); ("a"%string, VNumber 2)]).
Proof.
  apply (object_values_of_multihash no_compare empty_interpreter (VNumber 0)
           repeated_key_pairs 0 5 ctx0
           [(VString "a", VNumber 1); (VString "a", VNumber 2)]
           [("a"%string, VNumber 1); ("a"%string, VNumber 2)] (mkContext "" 4%nat)).
  - discriminate.
  - vm_compute; reflexivity.
  - reflexivity.
Defined.
